(** * WordCounter: a shallow embedding of [src/WordCounter/main.py]

    Python values are embedded as follows.
    - [str] is a sequence of Unicode code points: [list Z].
    - [int] is [Z]; [len] is [Z.of_nat (length _)].
    - [Counter] and [dict] keep their keys in insertion order, so they are
      association lists with distinct keys.
    - [set] is stdpp's [gset].
    - [similarity_ratio], the quotient of two set sizes, is carried as the
      exact rational in [Q] (CPython returns the binary64 value nearest to
      it).
    - the averages and the reading time are binary64 values, calculated as
      the Standard Library's [SpecFloat] specifies IEEE arithmetic.
    - the file system is what the operating system answers when the source
      opens, sizes or writes a file. *)

From Stdlib Require Import ZArith QArith List Ascii String ZifyBool.
From Stdlib.Strings Require Import Byte.
From Stdlib Require Import Floats.SpecFloat.
From stdpp Require Import gmap list sorting pretty.

Local Open Scope Z_scope.

Abbreviation str := (list Z).

(** A string literal of the source, as code points. *)
Definition s_ (lit : string) : str :=
  map (fun a => Z.of_N (N_of_ascii a)) (list_ascii_of_string lit).

(** ** Character classes *)

(** [str.isspace] and the regex class [\s] on [str] patterns test the same
    code points (CPython's [Py_UNICODE_ISSPACE]). *)
Definition isspace (c : Z) : bool :=
  ((9 <=? c) && (c <=? 13)) || ((28 <=? c) && (c <=? 32))
  || (c =? 0x85) || (c =? 0xA0) || (c =? 0x1680)
  || ((0x2000 <=? c) && (c <=? 0x200A))
  || (c =? 0x2028) || (c =? 0x2029) || (c =? 0x202F)
  || (c =? 0x205F) || (c =? 0x3000).

Definition is_upper (c : Z) : bool := (65 <=? c) && (c <=? 90).
Definition is_lower (c : Z) : bool := (97 <=? c) && (c <=? 122).
(** [[a-zA-Z]] *)
Definition is_letter (c : Z) : bool := is_lower c || is_upper c.
(** [[0-9]] *)
Definition is_digit (c : Z) : bool := (48 <=? c) && (c <=? 57).

(** ** Library string operations *)

(** [str.lower].  Exact on ASCII, on U+0130 (which lowers to the two code
    points [i], U+0307) and on U+212A KELVIN SIGN (which lowers to [k]).
    Every other code point lowers to code points that are neither ASCII
    letters nor white space, white space lowering to itself; they are left
    in place here, which [clean_text] cannot tell apart since it blanks
    them in its next step. *)
Definition lower_cp (c : Z) : str :=
  if is_upper c then [c + 32]
  else if c =? 0x130 then [0x69; 0x307]
  else if c =? 0x212A then [0x6B]
  else [c].

Definition lower (text : str) : str := concat (map lower_cp text).

(** [str.strip()]: drop leading and trailing white space. *)
Fixpoint lstrip (s : str) : str :=
  match s with
  | [] => []
  | c :: s' => if isspace c then lstrip s' else s
  end.

Fixpoint rstrip (s : str) : str :=
  match s with
  | [] => []
  | c :: s' =>
      match rstrip s' with
      | [] => if isspace c then [] else [c]
      | r => c :: r
      end
  end.

Definition strip (s : str) : str := rstrip (lstrip s).

(** Put [c] in front of the first piece of a split. *)
Definition push (c : Z) (pieces : list str) : list str :=
  match pieces with
  | w :: ws => (c :: w) :: ws
  | [] => [[c]]
  end.

(** [re.split] on a pattern [[...]+]: the pieces between the maximal runs of
    separator characters; [in_run] tells that the previous character was a
    separator. *)
Fixpoint split_runs (sep : Z -> bool) (in_run : bool) (s : str) : list str :=
  match s with
  | [] => [[]]
  | c :: s' =>
      if sep c then
        if in_run then split_runs sep true s'
        else [] :: split_runs sep true s'
      else push c (split_runs sep false s')
  end.

Definition nonempty (s : str) : bool :=
  match s with [] => false | _ => true end.

(** [str.split()] without argument: the pieces between runs of white space,
    without the empty pieces at the ends. *)
Definition split (s : str) : list str :=
  filter (fun w => Is_true (nonempty w)) (split_runs isspace false s).

(** [text.split('\n\n')]: cut at each occurrence of two newlines, scanning
    from the left. *)
Fixpoint split_nn (s : str) : list str :=
  match s with
  | [] => [[]]
  | c :: s' =>
      match s' with
      | d :: s'' =>
          if (c =? 10) && (d =? 10) then [] :: split_nn s''
          else push c (split_nn s')
      | [] => push c (split_nn s')
      end
  end.

(** [re.sub(r'[^a-zA-Z\s]', ' ', text)] *)
Definition sub_non_letters (text : str) : str :=
  map (fun c => if is_letter c || isspace c then c else 32) text.

(** [re.sub(r'\s+', ' ', text)]: each maximal run of white space becomes one
    space; [in_run] tells that the previous character was white space. *)
Fixpoint sub_spaces (in_run : bool) (text : str) : str :=
  match text with
  | [] => []
  | c :: s' =>
      if isspace c then
        if in_run then sub_spaces true s' else 32 :: sub_spaces true s'
      else c :: sub_spaces false s'
  end.

(** ** WordCounter *)

Definition stop_words : gset str :=
  list_to_set (map s_
    ["the"; "a"; "an"; "and"; "or"; "but"; "in"; "on"; "at"; "to"; "for";
     "of"; "with"; "by"; "is"; "are"; "was"; "were"; "be"; "been"; "being";
     "have"; "has"; "had"; "do"; "does"; "did"; "will"; "would"; "could";
     "should"; "may"; "might"; "must"; "can"; "this"; "that"; "these";
     "those"; "i"; "you"; "he"; "she"; "it"; "we"; "they"; "me"; "him";
     "her"; "us"; "them"; "my"; "your"; "his"; "its"; "our"; "their"]%string).

Definition clean_text (text : str) : str :=
  let text := lower text in
  let text := sub_non_letters text in
  let text := sub_spaces false text in
  strip text.

Definition extract_words (text : str) (include_stop_words : bool) : list str :=
  let cleaned_text := clean_text text in
  let words := split cleaned_text in
  let words :=
    if negb include_stop_words
    then filter (fun word => word ∉ stop_words) words
    else words in
  filter (fun word => Is_true (nonempty word)) words.

Record CharacterStats := {
  total_chars : Z;
  chars_no_spaces : Z;
  alphabetic_chars : Z;
  numeric_chars : Z;
  spaces : Z;
  punctuation : Z
}.

Definition len {A} (l : list A) : Z := Z.of_nat (length l).

Definition keep (p : Z -> bool) (text : str) : str :=
  filter (fun c => Is_true (p c)) text.

Definition count_characters (text : str) : CharacterStats :=
  {| total_chars := len text;
     chars_no_spaces := len (keep (fun c => negb (c =? 32)) text);
     alphabetic_chars := len (keep is_letter text);
     numeric_chars := len (keep is_digit text);
     spaces := len (keep (fun c => c =? 32) text);
     punctuation :=
       len (keep (fun c => negb (is_letter c || is_digit c || isspace c)) text)
  |}.

(** *** Counter *)

(** The items of a [Counter] or [dict], in insertion order. *)
Abbreviation items := (list (str * Z)).

(** [self[elem] = self.get(elem, 0) + 1]: a key already present keeps its
    place, a new key goes to the end. *)
Fixpoint Counter_count (elem : str) (d : items) : items :=
  match d with
  | [] => [(elem, 0 + 1)]
  | (k, v) :: d' =>
      if decide (k = elem) then (k, v + 1) :: d'
      else (k, v) :: Counter_count elem d'
  end.

(** [Counter(iterable)] *)
Definition Counter (iterable : list str) : items :=
  foldl (fun d elem => Counter_count elem d) [] iterable.

(** [c[key]]: a missing key counts as zero. *)
Fixpoint Counter_get (d : items) (key : str) : Z :=
  match d with
  | [] => 0
  | (k, v) :: d' => if decide (k = key) then v else Counter_get d' key
  end.

Definition keys (d : items) : list str := map fst d.
Definition values (d : items) : list Z := map snd d.

(** [sorted(d.items(), key=itemgetter(1), reverse=True)]: a stable sort, so
    items with equal counts stay in the order of [d].  Written as an
    insertion sort from the right: an item goes in front of the first one
    whose count is not larger. *)
Fixpoint insert_desc (x : str * Z) (l : items) : items :=
  match l with
  | [] => [x]
  | y :: l' => if x.2 <? y.2 then y :: insert_desc x l' else x :: l
  end.

Definition sorted_desc (d : items) : items := foldr insert_desc [] d.

(** [Counter.most_common(n)] is [heapq.nlargest(n, d.items(), key=count)],
    which returns what [sorted(..., reverse=True)[:n]] returns. *)
Definition most_common (n : nat) (d : items) : items := take n (sorted_desc d).

(** The value under ['word_frequency']: a [Counter] when [analyze_text]
    returns, a plain [dict] once [save_analysis] has converted it. *)
Inductive mapping :=
  | PyCounter (d : items)
  | PyDict (d : items).

Definition mapping_items (m : mapping) : items :=
  match m with PyCounter d | PyDict d => d end.

(** *** Numbers *)

(** A [float] is an IEEE binary64 number. *)
Abbreviation float := spec_float.

(** [float(n)] of an [int]: the nearest binary64. *)
Definition float_of_int (n : Z) : float := binary_normalize 53 1024 n 0 false.

(** [a / b] on two [int]s, [b] not zero: the binary64 nearest to the
    quotient.  It is calculated as the quotient of the two converted
    numbers, which is that value for all numbers below 2^53 in size. *)
Definition int_truediv (a b : Z) : float :=
  SFdiv 53 1024 (float_of_int a) (float_of_int b).

(** The integer nearest to [m * 2^e], the even one where two are equally
    near. *)
Definition nearest_even (m e : Z) : Z :=
  if 0 <=? e then m * 2 ^ e
  else
    let d := 2 ^ (- e) in
    let q := m / d in
    let r := m mod d in
    if 2 * r <? d then q
    else if d <? 2 * r then q + 1
    else if Z.even q then q else q + 1.

(** A number of the source: an [int] or a [float]. *)
Inductive number :=
  | PyInt (n : Z)
  | PyFloat (x : float).

(** [round(x, 2)].  An [int] comes back as it is.  A [float] is rounded, on
    its exact value, to the nearest multiple of 1/100, halves to the even
    one, and the result is the binary64 nearest to that decimal (here for
    all values below 2^53 / 100 in size). *)
Definition round_2 (x : number) : number :=
  match x with
  | PyInt n => PyInt n
  | PyFloat (S754_finite s m e) =>
      let r := int_truediv (nearest_even (100 * Zpos m) e) 100 in
      PyFloat (if s then SFopp r else r)
  | PyFloat y => PyFloat y
  end.

(** [sum(d.values())], [sum(len(word) for word in words)] *)
Definition sum (l : list Z) : Z := foldr Z.add 0 l.

(** The dict that [analyze_text] returns; the two file entries are the keys
    that [analyze_file] adds. *)
Record Analysis := {
  word_count : Z;
  unique_words : Z;
  sentence_count : Z;
  paragraph_count : Z;
  character_stats : CharacterStats;
  word_frequency : mapping;
  avg_word_length : number;
  avg_sentence_length : number;
  reading_time_minutes : number;
  most_common_words : items;
  file_path : option str;
  file_size_bytes : option Z
}.

(** [re.split(r'[.!?]+', text)] *)
Definition is_terminator (c : Z) : bool := (c =? 46) || (c =? 33) || (c =? 63).

(** [[s.strip() for s in l if s.strip()]] *)
Definition stripped_nonempty (l : list str) : list str :=
  map strip (filter (fun s => Is_true (nonempty (strip s))) l).

Definition analyze_text (text : str) (include_stop_words : bool) : Analysis :=
  let words := extract_words text include_stop_words in
  let sentences := split_runs is_terminator false text in
  let sentences := stripped_nonempty sentences in
  let paragraphs := split_nn text in
  let paragraphs := stripped_nonempty paragraphs in
  let word_freq := Counter words in
  let char_stats := count_characters text in
  let avg_word_length :=
    match words with
    | [] => PyInt 0
    | _ => PyFloat (int_truediv (sum (map len words)) (len words))
    end in
  let avg_sentence_length :=
    match sentences with
    | [] => PyInt 0
    | _ => PyFloat (int_truediv (len words) (len sentences))
    end in
  let reading_time_minutes := PyFloat (int_truediv (len words) 200) in
  {| word_count := len words;
     unique_words := len word_freq;
     sentence_count := len sentences;
     paragraph_count := len paragraphs;
     character_stats := char_stats;
     word_frequency := PyCounter word_freq;
     avg_word_length := round_2 avg_word_length;
     avg_sentence_length := round_2 avg_sentence_length;
     reading_time_minutes := round_2 reading_time_minutes;
     most_common_words := most_common 10 word_freq;
     file_path := None;
     file_size_bytes := None |}.

(** *** Reading a file *)

(** Why the operating system refuses a file: there is nothing under the
    name, it is a directory, a part of the path is no directory, the
    process has no permission, or any other error number. *)
Inductive os_failure :=
  | NoSuchFile
  | IsDirectory
  | NotDirectory
  | Denied
  | OtherFailure (errno : Z).

(** What comes of writing to a file opened with mode ['w']: all is written;
    the file cannot be opened; or it is opened, and so created or emptied,
    and the writing fails on the way. *)
Inductive write_result :=
  | Written
  | NotOpened (why : os_failure)
  | Interrupted (why : os_failure).

(** The file system, as far as the source meets it: for every path, what
    opening and reading the file gives, what its size is said to be, and
    what writing to it comes to.  The three answers are independent, as
    they are for a file that changes between two calls. *)
Record file_system := {
  read_answer : str -> os_failure + list byte;
  size_answer : str -> os_failure + Z;
  write_answer : str -> write_result
}.

Definition byte_val (b : byte) : Z := Z.of_N (Byte.to_N b).

Definition is_cont (x : Z) : bool := (0x80 <=? x) && (x <=? 0xBF).

(** Range of the second byte of a three-byte and of a four-byte sequence:
    no overlong forms, no surrogates, nothing above U+10FFFF. *)
Definition second_of_3 (x0 x1 : Z) : bool :=
  if x0 =? 0xE0 then (0xA0 <=? x1) && (x1 <=? 0xBF)
  else if x0 =? 0xED then (0x80 <=? x1) && (x1 <=? 0x9F)
  else is_cont x1.

Definition second_of_4 (x0 x1 : Z) : bool :=
  if x0 =? 0xF0 then (0x90 <=? x1) && (x1 <=? 0xBF)
  else if x0 =? 0xF4 then (0x80 <=? x1) && (x1 <=? 0x8F)
  else is_cont x1.

(** The strict [utf-8] codec; [None] where CPython raises
    [UnicodeDecodeError]. *)
Fixpoint utf8_decode (bs : list byte) : option str :=
  match bs with
  | [] => Some []
  | b0 :: r0 =>
      let x0 := byte_val b0 in
      if x0 <? 0x80 then cons x0 <$> utf8_decode r0
      else
        match r0 with
        | [] => None
        | b1 :: r1 =>
            let x1 := byte_val b1 in
            if (0xC2 <=? x0) && (x0 <=? 0xDF) then
              if is_cont x1
              then cons ((x0 - 0xC0) * 64 + (x1 - 0x80)) <$> utf8_decode r1
              else None
            else
              match r1 with
              | [] => None
              | b2 :: r2 =>
                  let x2 := byte_val b2 in
                  if (0xE0 <=? x0) && (x0 <=? 0xEF) then
                    if second_of_3 x0 x1 && is_cont x2
                    then cons ((x0 - 0xE0) * 4096 + (x1 - 0x80) * 64
                               + (x2 - 0x80)) <$> utf8_decode r2
                    else None
                  else
                    match r2 with
                    | [] => None
                    | b3 :: r3 =>
                        let x3 := byte_val b3 in
                        if (0xF0 <=? x0) && (x0 <=? 0xF4) then
                          if second_of_4 x0 x1 && is_cont x2 && is_cont x3
                          then cons ((x0 - 0xF0) * 262144 + (x1 - 0x80) * 4096
                                     + (x2 - 0x80) * 64 + (x3 - 0x80))
                                 <$> utf8_decode r3
                          else None
                        else None
                    end
              end
        end
  end.

(** Text mode reads with universal newlines: [\r\n] and [\r] become [\n]. *)
Fixpoint universal_newlines (s : str) : str :=
  match s with
  | [] => []
  | c :: s' =>
      if c =? 13 then
        10 :: match s' with
              | d :: s'' =>
                  if d =? 10 then universal_newlines s''
                  else universal_newlines s'
              | [] => []
              end
      else c :: universal_newlines s'
  end.

(** What an exception was built from: the operating system's error for a
    file name, or the positional arguments of a call in the source. *)
Inductive exc_args :=
  | OsError (errno : Z) (filename : str)
  | Args (args : list str).

Inductive exception :=
  | FileNotFoundError (a : exc_args)
  | UnicodeDecodeError
  | TypeError (message : str)
  | KeyError (key : str)
  | IsADirectoryError (filename : str)
  | NotADirectoryError (filename : str)
  | PermissionError (filename : str)
  | OSError (errno : Z) (filename : str)
  | ValueError
  | UnicodeEncodeError.

(** A call of the class [UnicodeDecodeError].  It takes exactly the five
    arguments encoding, object, start, end and reason; with any other
    number the call itself raises [TypeError] and no [UnicodeDecodeError]
    comes to exist. *)
Definition new_UnicodeDecodeError (args : list str) : exception :=
  if decide (length args = 5%nat) then UnicodeDecodeError
  else TypeError (s_ "function takes exactly 5 arguments ("
                  ++ s_ (pretty (length args)) ++ s_ " given)").

Definition ENOENT : Z := 2.

(** The exception that Python makes of a failure of the operating system;
    an error number without a class of its own stays an [OSError]. *)
Definition os_exception (why : os_failure) (filename : str) : exception :=
  match why with
  | NoSuchFile => FileNotFoundError (OsError ENOENT filename)
  | IsDirectory => IsADirectoryError filename
  | NotDirectory => NotADirectoryError filename
  | Denied => PermissionError filename
  | OtherFailure errno => OSError errno filename
  end.

(** A path with a NUL character in it never reaches the operating system:
    [open] and [os.stat] raise [ValueError]. *)
Definition has_nul (path : str) : bool := bool_decide (0 ∈ path).

(** [with open(file_path, 'r', encoding='utf-8') as file: file.read()] *)
Definition read_text (fs : file_system) (file_path : str) : exception + str :=
  if has_nul file_path then inl ValueError
  else
    match read_answer fs file_path with
    | inl why => inl (os_exception why file_path)
    | inr bs =>
        match utf8_decode bs with
        | None => inl UnicodeDecodeError
        | Some s => inr (universal_newlines s)
        end
    end.

(** [os.path.getsize(file_path)] *)
Definition getsize (fs : file_system) (file_path : str) : exception + Z :=
  if has_nul file_path then inl ValueError
  else
    match size_answer fs file_path with
    | inl why => inl (os_exception why file_path)
    | inr size => inr size
    end.

(** The body of the [try] block of [analyze_file]. *)
Definition analyze_file_try (fs : file_system) (file_path : str)
    (include_stop_words : bool) : exception + Analysis :=
  match read_text fs file_path with
  | inl e => inl e
  | inr content =>
      let analysis := analyze_text content include_stop_words in
      match getsize fs file_path with
      | inl e => inl e
      | inr size =>
          inr {| word_count := word_count analysis;
                 unique_words := unique_words analysis;
                 sentence_count := sentence_count analysis;
                 paragraph_count := paragraph_count analysis;
                 character_stats := character_stats analysis;
                 word_frequency := word_frequency analysis;
                 avg_word_length := avg_word_length analysis;
                 avg_sentence_length := avg_sentence_length analysis;
                 reading_time_minutes := reading_time_minutes analysis;
                 most_common_words := most_common_words analysis;
                 file_path := Some file_path;
                 file_size_bytes := Some size |}
      end
  end.

Definition analyze_file (fs : file_system) (file_path : str)
    (include_stop_words : bool) : exception + Analysis :=
  match analyze_file_try fs file_path include_stop_words with
  | inl (FileNotFoundError _) =>
      inl (FileNotFoundError (Args [s_ "File not found: " ++ file_path]))
  | inl UnicodeDecodeError =>
      inl (new_UnicodeDecodeError
             [s_ "Unable to read file. Please ensure it's a text file with UTF-8 encoding."])
  | r => r
  end.

(** *** Comparing two texts *)

(** [set(analysis['word_frequency'].keys())] *)
Definition key_set (analysis : Analysis) : gset str :=
  list_to_set (keys (mapping_items (word_frequency analysis))).

(** The local variables of [compare_texts] before it builds its result. *)
Record compare_locals := {
  analysis1 : Analysis;
  analysis2 : Analysis;
  words1 : gset str;
  words2 : gset str;
  unique_to_text1 : gset str;
  unique_to_text2 : gset str;
  common_words : gset str
}.

Definition compare_vars (text1 text2 : str) : compare_locals :=
  let analysis1 := analyze_text text1 false in
  let analysis2 := analyze_text text2 false in
  let words1 := key_set analysis1 in
  let words2 := key_set analysis2 in
  {| analysis1 := analysis1;
     analysis2 := analysis2;
     words1 := words1;
     words2 := words2;
     unique_to_text1 := words1 ∖ words2;
     unique_to_text2 := words2 ∖ words1;
     common_words := words1 ∩ words2 |}.

(** The dict that [compare_texts] returns; the primes tell its two lists
    from the sets they are cut from. *)
Record Comparison := {
  text1_stats : Analysis;
  text2_stats : Analysis;
  unique_to_text1' : list str;
  unique_to_text2' : list str;
  common_words_count : Z;
  similarity_ratio : Q
}.

(** [len(a) / len(b)], as the exact quotient. *)
Definition true_div (a b : Z) : Q := (inject_Z a / inject_Z b)%Q.

(** [list(s)] enumerates a set in the order of its hash table, which the
    language leaves open; [elements] stands for that order, and nothing
    below depends on which order it is. *)
Definition compare_texts (text1 text2 : str) : Comparison :=
  let v := compare_vars text1 text2 in
  {| text1_stats := analysis1 v;
     text2_stats := analysis2 v;
     unique_to_text1' := take 10 (elements (unique_to_text1 v));
     unique_to_text2' := take 10 (elements (unique_to_text2 v));
     common_words_count := Z.of_nat (size (common_words v));
     similarity_ratio :=
       if bool_decide (words1 v ∪ words2 v ≠ ∅)
       then true_div (Z.of_nat (size (common_words v)))
                     (Z.of_nat (size (words1 v ∪ words2 v)))
       else 0%Q |}.

(** *** Saving an analysis *)

(** [m[key]]: a [Counter] answers 0 for a key it does not hold, a plain
    [dict] raises [KeyError]. *)
Definition mapping_getitem (m : mapping) (key : str) : exception + Z :=
  match m with
  | PyCounter d => inr (Counter_get d key)
  | PyDict d =>
      if decide (key ∈ keys d) then inr (Counter_get d key)
      else inl (KeyError key)
  end.

(** The result dicts live in a store and are passed by reference. *)
Abbreviation loc := positive.
Abbreviation store := (gmap loc Analysis).

(** What [save_analysis] does to the output file through
    [json.dump(obj, file, indent=2, ensure_ascii=False)]: [JsonDump] says
    that the file now holds the whole dump of [obj], [JsonCut] that the
    file was created or emptied and holds at most a beginning of it. *)
Inductive event :=
  | JsonDump (output_file : str) (obj : Analysis)
  | JsonCut (output_file : str) (obj : Analysis).

Definition event_file (ev : event) : str :=
  match ev with JsonDump f _ | JsonCut f _ => f end.

Definition event_obj (ev : event) : Analysis :=
  match ev with JsonDump _ a | JsonCut _ a => a end.

(** The [utf-8] codec does not write surrogates, and with
    [ensure_ascii=False] every [str] of the dump is written as it is: the
    words of the two tables and the path. *)
Definition is_surrogate (c : Z) : bool := (0xD800 <=? c) && (c <=? 0xDFFF).

Definition no_surrogate (s : str) : bool :=
  forallb (fun c => negb (is_surrogate c)) s.

Definition encodable (obj : Analysis) : bool :=
  forallb no_surrogate (keys (mapping_items (word_frequency obj)))
  && forallb no_surrogate (keys (most_common_words obj))
  && match file_path obj with
     | Some path => no_surrogate path
     | None => true
     end.

(** [with open(output_file, 'w', encoding='utf-8') as file: json.dump(...)]:
    what is written, and the exception that ends it, if one does. *)
Definition dump_to_file (fs : file_system) (output_file : str)
    (obj : Analysis) : list event * option exception :=
  if has_nul output_file then ([], Some ValueError)
  else
    match write_answer fs output_file with
    | NotOpened why => ([], Some (os_exception why output_file))
    | Interrupted why =>
        ([JsonCut output_file obj], Some (os_exception why output_file))
    | Written =>
        if encodable obj then ([JsonDump output_file obj], None)
        else ([JsonCut output_file obj], Some UnicodeEncodeError)
    end.

(** [analysis['word_frequency'] = dict(analysis['word_frequency'])]; the
    test ['word_frequency' in analysis] holds of every [Analysis]. *)
Definition to_plain_dict (a : Analysis) : Analysis :=
  {| word_count := word_count a;
     unique_words := unique_words a;
     sentence_count := sentence_count a;
     paragraph_count := paragraph_count a;
     character_stats := character_stats a;
     word_frequency := PyDict (mapping_items (word_frequency a));
     avg_word_length := avg_word_length a;
     avg_sentence_length := avg_sentence_length a;
     reading_time_minutes := reading_time_minutes a;
     most_common_words := most_common_words a;
     file_path := file_path a;
     file_size_bytes := file_size_bytes a |}.

(** The store after the call, what was written, and the exception that
    ended the call, if one did; [None] only for a reference to nothing,
    which no caller holds. *)
Definition save_analysis (fs : file_system) (σ : store) (analysis : loc)
    (output_file : str) : option (store * list event * option exception) :=
  match σ !! analysis with
  | None => None
  | Some a =>
      let σ := <[analysis := to_plain_dict a]> σ in
      match σ !! analysis with
      | None => None
      | Some a' =>
          let '(events, raised) := dump_to_file fs output_file a' in
          Some (σ, events, raised)
      end
  end.

Definition scenario : str := s_ "The quick brown fox. The lazy dog!".


(** [words.count(w)] *)
Definition occurrences (w : str) (words : list str) : Z :=
  len (filter (fun x => x = w) words).

(** [words.index(w)], the place where [w] is first met; the length of
    [words] when it never is. *)
Fixpoint first_index (w : str) (words : list str) : nat :=
  match words with
  | [] => 0
  | x :: words' => if decide (x = w) then 0 else S (first_index w words')
  end.

(** The vocabulary of a text: its distinct words, stop words excluded. *)
Definition vocabulary (text : str) : gset str :=
  list_to_set (extract_words text false).

(** The similarity ratio in the words of the specification: the size of the
    intersection over the size of the union, and 0 when both vocabularies
    are empty. *)
Definition jaccard (vocab1 vocab2 : gset str) : Q :=
  if decide (vocab1 = ∅ ∧ vocab2 = ∅) then 0%Q
  else Z.of_nat (size (vocab1 ∩ vocab2)) # Pos.of_nat (size (vocab1 ∪ vocab2)).

(** Text as [clean_text] leaves it between its ends: lower-case ASCII
    letters and single spaces; [after_space] tells that the previous
    character was a space. *)
Fixpoint tidy (after_space : bool) (s : str) : Prop :=
  match s with
  | [] => True
  | c :: s' =>
      if isspace c then after_space = false ∧ c = 32 ∧ tidy true s'
      else is_lower c = true ∧ tidy false s'
  end.

(** [a] was first met in [words] before [b] was. *)
Definition met_before (words : list str) (a b : str * Z) : Prop :=
  (first_index a.1 words < first_index b.1 words)%nat.

(** The order of [most_common_words]: the larger count first, and of two
    equal counts the word that was met first. *)
Definition ranks_before (words : list str) (a b : str * Z) : Prop :=
  b.2 < a.2 ∨ (a.2 = b.2 ∧ met_before words a b).

(** *** Entering a text *)

(** [sep.join(pieces)] *)
Fixpoint join (sep : str) (pieces : list str) : str :=
  match pieces with
  | [] => []
  | p :: rest =>
      match rest with
      | [] => p
      | _ => p ++ sep ++ join sep rest
      end
  end.

(** The loop by which [main] reads a text, one line per [input()], until an
    empty line follows an empty line.  [stdin] holds the lines still to
    come; [None] is the [EOFError] of [input()] when there is none left.
    The result is [lines] at the [break] and the rest of the input. *)
Fixpoint read_lines (lines : list str) (stdin : list str)
    : option (list str * list str) :=
  match stdin with
  | [] => None
  | line :: stdin' =>
      if bool_decide (line = []) && bool_decide (last lines = Some [])
      then Some (lines, stdin')
      else read_lines (lines ++ [line]) stdin'
  end.

(** [text = "\n".join(lines[:-1])] after the loop. *)
Definition enter_text (stdin : list str) : option (str * list str) :=
  match read_lines [] stdin with
  | None => None
  | Some (lines, stdin') =>
      Some (join [10] (take (length lines - 1) lines), stdin')
  end.

(** ** Inputs of the scenarios *)

(** One file, [bad.bin], holding the byte 0xFF; every file can be written
    but the one with the empty name, which cannot be opened. *)
Definition bad_fs : file_system :=
  {| read_answer path :=
       if decide (path = s_ "bad.bin") then inr [xff] else inl NoSuchFile;
     size_answer path :=
       if decide (path = s_ "bad.bin") then inr 1 else inl NoSuchFile;
     write_answer path :=
       if decide (path = []) then NotOpened NoSuchFile else Written |}.

Definition saved : loc := 1%positive.
Definition store0 : store := {[ saved := analyze_text (s_ "a b a") true ]}.

(** * Properties *)

(** ** The scenario of the specification *)

(** C1, as stated, fails: the scenario text has seven words, not eight. *)
Lemma scenario_not_eight_words :
  ¬ (word_count (analyze_text scenario true) = 8
     ∧ sentence_count (analyze_text scenario true) = 2
     ∧ Counter_get (mapping_items (word_frequency (analyze_text scenario true)))
         (s_ "the") = 2).
Proof. vm_compute. intros [H _]. discriminate H. Qed.

(** C1, amended: for the text "The quick brown fox. The lazy dog!" analysed
    with stop words included, [analyze_text] returns [word_count] 7,
    [sentence_count] 2 and the frequency 2 for "the". *)
Theorem scenario_counts :
  word_count (analyze_text scenario true) = 7
  ∧ sentence_count (analyze_text scenario true) = 2
  ∧ Counter_get (mapping_items (word_frequency (analyze_text scenario true)))
      (s_ "the") = 2.
Proof. vm_compute. done. Qed.

(** ** Errors of [analyze_file] *)

Lemma analyze_file_missing fs file_path include_stop_words :
  has_nul file_path = false →
  read_answer fs file_path = inl NoSuchFile →
  analyze_file fs file_path include_stop_words
  = inl (FileNotFoundError (Args [s_ "File not found: " ++ file_path])).
Proof.
  intros Hnul Hnone. unfold analyze_file, analyze_file_try, read_text.
  by rewrite Hnul, Hnone.
Qed.

Lemma analyze_file_undecodable fs file_path include_stop_words bs :
  has_nul file_path = false →
  read_answer fs file_path = inr bs → utf8_decode bs = None →
  analyze_file fs file_path include_stop_words
  = inl (TypeError (s_ "function takes exactly 5 arguments (1 given)")).
Proof.
  intros Hnul Hfile Hdec. unfold analyze_file, analyze_file_try, read_text.
  by rewrite Hnul, Hfile, Hdec.
Qed.

(** C2: on an existing file that is not valid UTF-8 (the single byte 0xFF)
    [analyze_file] raises [TypeError], from calling [UnicodeDecodeError]
    with one argument, and not a decode error. *)
Theorem analyze_file_bad_utf8 :
  analyze_file bad_fs (s_ "bad.bin") true
  = inl (TypeError (s_ "function takes exactly 5 arguments (1 given)"))
  ∧ analyze_file bad_fs (s_ "bad.bin") true ≠ inl UnicodeDecodeError.
Proof. split; [by vm_compute | vm_compute; discriminate]. Qed.

(** ** The effect of [save_analysis] *)

(** C3, as stated, fails: after the call the result passed in is no longer
    what it was; asking its [word_frequency] for a word that is not in the
    text answered 0 before the call and raises [KeyError] after it. *)
Lemma save_analysis_changes_argument :
  match save_analysis bad_fs store0 saved (s_ "analysis.json") with
  | Some (σ', _, _) =>
      σ' !! saved ≠ store0 !! saved
      ∧ (a ← store0 !! saved; Some (mapping_getitem (word_frequency a) (s_ "c")))
        = Some (inr 0)
      ∧ (a ← σ' !! saved; Some (mapping_getitem (word_frequency a) (s_ "c")))
        = Some (inl (KeyError (s_ "c")))
  | None => False
  end.
Proof. vm_compute. split_and!; congruence. Qed.

(** C3, amended: [save_analysis] replaces the [word_frequency] entry of the
    result passed in by a plain dict with the same items in the same order,
    whether or not the writing then succeeds; every other entry of that
    result and every other object of the store is as before.  Beyond that
    it touches the output file only, and only with the dump of that
    result: when the call returns normally the file holds the whole dump;
    it does return normally when the file opens, the writing is not
    interrupted and the result can be encoded; and when the file cannot be
    opened nothing is written and the call ends in an exception. *)
Theorem save_analysis_effect (fs : file_system) (σ : store) (analysis : loc)
    (a : Analysis) (output_file : str) :
  σ !! analysis = Some a →
  ∃ a' σ' events raised,
    save_analysis fs σ analysis output_file = Some (σ', events, raised)
    ∧ σ' !! analysis = Some a'
    ∧ (∀ l, l ≠ analysis → σ' !! l = σ !! l)
    ∧ word_frequency a' = PyDict (mapping_items (word_frequency a))
    ∧ word_count a' = word_count a
    ∧ unique_words a' = unique_words a
    ∧ sentence_count a' = sentence_count a
    ∧ paragraph_count a' = paragraph_count a
    ∧ character_stats a' = character_stats a
    ∧ avg_word_length a' = avg_word_length a
    ∧ avg_sentence_length a' = avg_sentence_length a
    ∧ reading_time_minutes a' = reading_time_minutes a
    ∧ most_common_words a' = most_common_words a
    ∧ file_path a' = file_path a
    ∧ file_size_bytes a' = file_size_bytes a
    ∧ (∀ ev, ev ∈ events → event_file ev = output_file ∧ event_obj ev = a')
    ∧ (raised = None → events = [JsonDump output_file a'])
    ∧ (has_nul output_file = false → write_answer fs output_file = Written →
       encodable a' = true → raised = None)
    ∧ (has_nul output_file = true
       ∨ (∃ why, write_answer fs output_file = NotOpened why) →
       events = [] ∧ raised ≠ None).
Proof.
  intros Hin.
  destruct (dump_to_file fs output_file (to_plain_dict a))
    as [events raised] eqn:Hdump.
  exists (to_plain_dict a), (<[analysis := to_plain_dict a]> σ), events, raised.
  unfold save_analysis. rewrite Hin, (lookup_insert_eq σ), Hdump.
  unfold dump_to_file in Hdump.
  split_and!; try done.
  - intros l Hne. by apply lookup_insert_ne.
  - intros ev Hev.
    destruct (has_nul output_file), (write_answer fs output_file),
      (encodable (to_plain_dict a)); simplify_eq;
      try (by apply elem_of_nil in Hev);
      by apply list_elem_of_singleton in Hev as ->.
  - intros ->.
    destruct (has_nul output_file), (write_answer fs output_file),
      (encodable (to_plain_dict a)); by simplify_eq.
  - intros Hnul Hw Henc. rewrite Hnul, Hw, Henc in Hdump. by simplify_eq.
  - intros [Hnul|[why Hw]].
    + rewrite Hnul in Hdump. by simplify_eq.
    + rewrite Hw in Hdump. destruct (has_nul output_file); by simplify_eq.
Qed.

Lemma save_analysis_effect_witness :
  ∃ a' σ' events raised,
    save_analysis bad_fs store0 saved (s_ "analysis.json")
    = Some (σ', events, raised)
    ∧ σ' !! saved = Some a'
    ∧ (∀ l, l ≠ saved → σ' !! l = store0 !! l)
    ∧ word_frequency a'
      = PyDict (mapping_items (word_frequency (analyze_text (s_ "a b a") true)))
    ∧ word_count a' = word_count (analyze_text (s_ "a b a") true)
    ∧ unique_words a' = unique_words (analyze_text (s_ "a b a") true)
    ∧ sentence_count a' = sentence_count (analyze_text (s_ "a b a") true)
    ∧ paragraph_count a' = paragraph_count (analyze_text (s_ "a b a") true)
    ∧ character_stats a' = character_stats (analyze_text (s_ "a b a") true)
    ∧ avg_word_length a' = avg_word_length (analyze_text (s_ "a b a") true)
    ∧ avg_sentence_length a'
      = avg_sentence_length (analyze_text (s_ "a b a") true)
    ∧ reading_time_minutes a'
      = reading_time_minutes (analyze_text (s_ "a b a") true)
    ∧ most_common_words a' = most_common_words (analyze_text (s_ "a b a") true)
    ∧ file_path a' = file_path (analyze_text (s_ "a b a") true)
    ∧ file_size_bytes a' = file_size_bytes (analyze_text (s_ "a b a") true)
    ∧ (∀ ev, ev ∈ events →
         event_file ev = s_ "analysis.json" ∧ event_obj ev = a')
    ∧ (raised = None → events = [JsonDump (s_ "analysis.json") a'])
    ∧ (has_nul (s_ "analysis.json") = false →
       write_answer bad_fs (s_ "analysis.json") = Written →
       encodable a' = true → raised = None)
    ∧ (has_nul (s_ "analysis.json") = true
       ∨ (∃ why, write_answer bad_fs (s_ "analysis.json") = NotOpened why) →
       events = [] ∧ raised ≠ None).
Proof.
  apply (save_analysis_effect bad_fs store0 saved
           (analyze_text (s_ "a b a") true)).
  reflexivity.
Defined.

(** A file that cannot be opened, here the one with the empty name: the
    call ends in the error of [open], nothing is written, and the result
    has been converted all the same. *)
Lemma save_analysis_unopenable :
  ∃ σ',
    save_analysis bad_fs store0 saved []
    = Some (σ', [], Some (FileNotFoundError (OsError ENOENT [])))
    ∧ (word_frequency <$> σ' !! saved)
      = Some (PyDict [(s_ "a", 2); (s_ "b", 1)]).
Proof. eexists. split; by vm_compute. Qed.

(** ** The counter *)

Section counter.
Implicit Types (d : items) (w k : str) (words : list str).

Lemma Counter_snoc words w :
  Counter (words ++ [w]) = Counter_count w (Counter words).
Proof. unfold Counter. by rewrite foldl_snoc. Qed.

Lemma keys_Counter_count w d :
  keys (Counter_count w d)
  = if decide (w ∈ keys d) then keys d else keys d ++ [w].
Proof.
  induction d as [|[k v] d IH]; simpl.
  - done.
  - destruct (decide (k = w)) as [->|Hne]; simpl.
    + rewrite decide_True; [done | left].
    + rewrite IH. destruct (decide (w ∈ keys d)) as [Hin|Hnin].
      * rewrite decide_True; [done | by right].
      * rewrite decide_False; [done |].
        intros [Heq|Hin]%elem_of_cons; [by subst | done].
Qed.

Lemma length_Counter_count w d :
  length (Counter_count w d)
  = if decide (w ∈ keys d) then length d else S (length d).
Proof.
  rewrite <- !(length_map fst d), <- (length_map fst (Counter_count w d)).
  fold (keys d) (keys (Counter_count w d)). rewrite keys_Counter_count.
  destruct (decide (w ∈ keys d)); [done |].
  rewrite length_app. simpl. lia.
Qed.

Lemma sum_values_Counter_count w d :
  sum (values (Counter_count w d)) = sum (values d) + 1.
Proof.
  induction d as [|[k v] d IH]; simpl; [done |].
  destruct (decide (k = w)); simpl; [| rewrite IH]; lia.
Qed.

Lemma Counter_get_Counter_count w d k :
  Counter_get (Counter_count w d) k
  = Counter_get d k + (if decide (w = k) then 1 else 0).
Proof.
  induction d as [|[k' v] d IH]; simpl.
  - by destruct (decide (w = k)).
  - destruct (decide (k' = w)) as [->|Hne]; simpl.
    + destruct (decide (w = k)); lia.
    + destruct (decide (k' = k)) as [->|Hne'].
      * rewrite decide_False by congruence. lia.
      * apply IH.
Qed.

Lemma elem_of_keys_Counter words w : w ∈ keys (Counter words) ↔ w ∈ words.
Proof.
  revert w. induction words as [|x words IH] using rev_ind; intros w.
  - done.
  - rewrite Counter_snoc, keys_Counter_count, elem_of_app.
    rewrite list_elem_of_singleton.
    destruct (decide (x ∈ keys (Counter words))) as [Hin|Hnin].
    + rewrite IH. split; [auto | intros [?| ->]; [done | by apply IH]].
    + by rewrite elem_of_app, IH, list_elem_of_singleton.
Qed.

Lemma NoDup_keys_Counter words : NoDup (keys (Counter words)).
Proof.
  induction words as [|x words IH] using rev_ind.
  - constructor.
  - rewrite Counter_snoc, keys_Counter_count.
    destruct (decide (x ∈ keys (Counter words))) as [Hin|Hnin]; [done |].
    apply NoDup_app. split_and!; [done | | apply NoDup_singleton].
    intros y Hy ->%list_elem_of_singleton. done.
Qed.

Lemma length_Counter words : (length (Counter words) ≤ length words)%nat.
Proof.
  induction words as [|x words IH] using rev_ind; [done |].
  rewrite Counter_snoc, length_Counter_count, length_app. simpl.
  destruct (decide (x ∈ keys (Counter words))); lia.
Qed.

Lemma sum_values_Counter words : sum (values (Counter words)) = len words.
Proof.
  unfold len. induction words as [|x words IH] using rev_ind; [done |].
  rewrite Counter_snoc, sum_values_Counter_count, IH, length_app.
  simpl. lia.
Qed.
End counter.

(** C7: for every text and stop-word flag the result of [analyze_text] has
    [0 ≤ unique_words ≤ word_count]. *)
Theorem unique_words_bounds (text : str) (include_stop_words : bool) :
  0 ≤ unique_words (analyze_text text include_stop_words)
    ≤ word_count (analyze_text text include_stop_words).
Proof.
  simpl. unfold len.
  pose proof (length_Counter (extract_words text include_stop_words)). lia.
Qed.

(** C9: for every text and stop-word flag the counts of the [word_frequency]
    table returned by [analyze_text] add up to its [word_count]. *)
Theorem word_frequency_sum (text : str) (include_stop_words : bool) :
  sum (values (mapping_items
                 (word_frequency (analyze_text text include_stop_words))))
  = word_count (analyze_text text include_stop_words).
Proof. simpl. apply sum_values_Counter. Qed.

(** ** Comparison *)

Section comparison.
Implicit Types (text : str) (X Y : gset str).

Lemma key_set_analyze_text text :
  key_set (analyze_text text false) = vocabulary text.
Proof.
  unfold key_set, vocabulary. simpl. apply set_eq. intros w.
  rewrite !elem_of_list_to_set. apply elem_of_keys_Counter.
Qed.

Lemma similarity_ratio_unfold text1 text2 :
  similarity_ratio (compare_texts text1 text2)
  = if bool_decide (vocabulary text1 ∪ vocabulary text2 ≠ ∅)
    then true_div
           (Z.of_nat (size (vocabulary text1 ∩ vocabulary text2)))
           (Z.of_nat (size (vocabulary text1 ∪ vocabulary text2)))
    else 0%Q.
Proof.
  unfold compare_texts, compare_vars. simpl.
  by rewrite !key_set_analyze_text.
Qed.

Lemma unique_to_text1_vocabulary text1 text2 :
  unique_to_text1 (compare_vars text1 text2)
  = vocabulary text1 ∖ vocabulary text2.
Proof. unfold compare_vars. simpl. by rewrite !key_set_analyze_text. Qed.

Lemma unique_to_text2_vocabulary text1 text2 :
  unique_to_text2 (compare_vars text1 text2)
  = vocabulary text2 ∖ vocabulary text1.
Proof. unfold compare_vars. simpl. by rewrite !key_set_analyze_text. Qed.

Lemma true_div_Qmake (a : Z) (n : nat) :
  n ≠ 0%nat → (true_div a (Z.of_nat n) == a # Pos.of_nat n)%Q.
Proof.
  intros Hn. unfold true_div. rewrite Qmake_Qdiv.
  replace (Z.pos (Pos.of_nat n)) with (Z.of_nat n) by lia. reflexivity.
Qed.

Lemma size_union_ne_0 X Y : X ∪ Y ≠ ∅ → size (X ∪ Y) ≠ 0%nat.
Proof. intros Hne Hsize. by apply Hne, leibniz_equiv, size_empty_iff. Qed.

Lemma size_intersection_le_union X Y : (size (X ∩ Y) ≤ size (X ∪ Y))%nat.
Proof.
  apply subseteq_size. intros w [Hw _]%elem_of_intersection.
  by apply elem_of_union_l.
Qed.

Lemma Qmake_unit_interval (a n : nat) :
  (a ≤ n)%nat → n ≠ 0%nat →
  (0 <= Z.of_nat a # Pos.of_nat n <= 1)%Q.
Proof. intros Hle Hn. unfold Qle. simpl. lia. Qed.
End comparison.

(** C5: for every pair of texts [compare_texts] returns the similarity
    ratio |vocab1 ∩ vocab2| / |vocab1 ∪ vocab2| of the two vocabularies
    without stop words, which is 0 when both are empty and always lies
    between 0 and 1. *)
Theorem similarity_ratio_jaccard (text1 text2 : str) :
  (similarity_ratio (compare_texts text1 text2)
   == jaccard (vocabulary text1) (vocabulary text2))%Q
  ∧ (vocabulary text1 = ∅ ∧ vocabulary text2 = ∅ →
     similarity_ratio (compare_texts text1 text2) = 0%Q)
  ∧ (0 <= similarity_ratio (compare_texts text1 text2) <= 1)%Q.
Proof.
  rewrite similarity_ratio_unfold. unfold jaccard.
  set (V1 := vocabulary text1). set (V2 := vocabulary text2).
  destruct (bool_decide_reflect (V1 ∪ V2 ≠ ∅)) as [Hne|Hemp].
  - pose proof (size_union_ne_0 _ _ Hne) as Hsize.
    pose proof (size_intersection_le_union V1 V2) as Hle.
    split; [| split].
    + rewrite decide_False.
      * by apply true_div_Qmake.
      * intros [-> ->]. apply Hne. by rewrite union_empty_l_L.
    + intros [-> ->]. destruct Hne. by rewrite union_empty_l_L.
    + rewrite true_div_Qmake by done. by apply Qmake_unit_interval.
  - apply dec_stable in Hemp. apply empty_union_L in Hemp as [-> ->].
    split; [by rewrite decide_True | done].
Qed.

(** C8: for every text whose vocabulary without stop words is not empty,
    comparing the text with itself gives the similarity ratio 1 and two
    empty unique-word collections. *)
Theorem compare_texts_self (text : str) :
  vocabulary text ≠ ∅ →
  (similarity_ratio (compare_texts text text) == 1)%Q
  ∧ unique_to_text1 (compare_vars text text) = ∅
  ∧ unique_to_text2 (compare_vars text text) = ∅
  ∧ unique_to_text1' (compare_texts text text) = []
  ∧ unique_to_text2' (compare_texts text text) = [].
Proof.
  intros Hne.
  assert (size (vocabulary text) ≠ 0%nat) as Hsize.
  { intros Hsize. by apply Hne, leibniz_equiv, size_empty_iff. }
  assert (vocabulary text ∖ vocabulary text = ∅) as Hdiff
    by apply difference_diag_L.
  split.
  - rewrite similarity_ratio_unfold.
    replace (vocabulary text ∪ vocabulary text) with (vocabulary text)
      by (symmetry; apply union_idemp_L).
    replace (vocabulary text ∩ vocabulary text) with (vocabulary text)
      by (symmetry; apply intersection_idemp_L).
    rewrite bool_decide_true, true_div_Qmake by done.
    unfold Qeq. simpl. lia.
  - unfold compare_texts, compare_vars. simpl.
    rewrite key_set_analyze_text, Hdiff.
    split_and!; try done; apply (f_equal (take 10)), elements_empty.
Qed.

Lemma compare_texts_self_witness :
  (similarity_ratio (compare_texts (s_ "quick fox") (s_ "quick fox")) == 1)%Q
  ∧ unique_to_text1 (compare_vars (s_ "quick fox") (s_ "quick fox")) = ∅
  ∧ unique_to_text2 (compare_vars (s_ "quick fox") (s_ "quick fox")) = ∅
  ∧ unique_to_text1' (compare_texts (s_ "quick fox") (s_ "quick fox")) = []
  ∧ unique_to_text2' (compare_texts (s_ "quick fox") (s_ "quick fox")) = [].
Proof.
  apply (compare_texts_self (s_ "quick fox")). vm_compute. discriminate.
Defined.

(** C10: [compare_texts] is symmetric in its aggregate results: swapping
    the two texts leaves the similarity ratio and the number of common
    words as they are, and swaps the two sets of unique words (the sets
    from which the lists of at most ten are cut). *)
Theorem compare_texts_symmetric (text1 text2 : str) :
  similarity_ratio (compare_texts text1 text2)
  = similarity_ratio (compare_texts text2 text1)
  ∧ common_words_count (compare_texts text1 text2)
    = common_words_count (compare_texts text2 text1)
  ∧ unique_to_text1 (compare_vars text1 text2)
    = unique_to_text2 (compare_vars text2 text1)
  ∧ unique_to_text2 (compare_vars text1 text2)
    = unique_to_text1 (compare_vars text2 text1).
Proof.
  unfold compare_texts, compare_vars. simpl.
  rewrite (union_comm_L (key_set (analyze_text text2 false))).
  rewrite (intersection_comm_L (key_set (analyze_text text2 false))).
  done.
Qed.

(** ** Normalisation *)

Section normalisation.
Implicit Types (s text : str) (c : Z) (b : bool).

Lemma lower_cp_not_upper c : Forall (fun x => is_upper x = false) (lower_cp c).
Proof.
  unfold lower_cp. destruct (is_upper c) eqn:Hup.
  { repeat constructor. unfold is_upper in *. lia. }
  destruct (c =? 0x130) eqn:?; [by repeat constructor |].
  destruct (c =? 0x212A) eqn:?; by repeat constructor.
Qed.

Lemma sub_non_letters_lower text :
  Forall (fun c => is_lower c = true ∨ isspace c = true)
         (sub_non_letters (lower text)).
Proof.
  unfold sub_non_letters, lower. apply Forall_map, Forall_concat, Forall_map.
  apply Forall_forall. intros c _.
  eapply Forall_impl; [apply lower_cp_not_upper |].
  intros x Hx. simpl. unfold is_letter. rewrite Hx, orb_false_r.
  destruct (is_lower x) eqn:Hlow; simpl; [by left |].
  destruct (isspace x) eqn:Hsp; by right.
Qed.

Lemma tidy_sub_spaces b s :
  Forall (fun c => is_lower c = true ∨ isspace c = true) s →
  tidy b (sub_spaces b s).
Proof.
  intros Hs. revert b.
  induction Hs as [|c s Hc _ IH]; intros b; simpl; [done |].
  destruct (isspace c) eqn:Hsp.
  - destruct b; [apply IH |]. simpl. split_and!; [done.. | apply IH].
  - simpl. rewrite Hsp. split; [| apply IH]. by destruct Hc.
Qed.

Lemma tidy_weaken b s : tidy b s → tidy false s.
Proof.
  destruct s as [|c s]; simpl; [done |].
  destruct (isspace c); [| done]. by intros (_ & ? & ?).
Qed.

Lemma tidy_lstrip b s : tidy b s → tidy false (lstrip s).
Proof.
  revert b. induction s as [|c s IH]; intros b Hs; [done |].
  simpl in *. destruct (isspace c) eqn:Hsp.
  - destruct Hs as (_ & _ & Hs). by eapply IH.
  - simpl. by rewrite Hsp.
Qed.

Lemma tidy_rstrip b s : tidy b s → tidy b (rstrip s).
Proof.
  revert b. induction s as [|c s IH]; intros b Hs; [done |].
  simpl in *. destruct (isspace c) eqn:Hsp.
  - destruct Hs as (-> & -> & Hs). apply IH in Hs.
    destruct (rstrip s) as [|y r]; [done |].
    change (tidy false (32 :: y :: r)). simpl (tidy false (32 :: _)).
    done.
  - destruct Hs as (Hlow & Hs). apply IH in Hs.
    destruct (rstrip s) as [|y r]; simpl; by rewrite Hsp.
Qed.

Lemma tidy_clean_text text : tidy false (clean_text text).
Proof.
  unfold clean_text, strip.
  apply tidy_rstrip, (tidy_lstrip false), tidy_sub_spaces.
  apply sub_non_letters_lower.
Qed.

(** From [tidy b (c :: s)], after [simpl], to the fact about [s]. *)
Ltac tidy_tail Hs :=
  match type of Hs with
  | if isspace ?c then _ else _ =>
      destruct (isspace c);
      [destruct Hs as (_ & _ & Hs) | destruct Hs as (_ & Hs)]
  end.

Lemma tidy_char b c s :
  tidy b (c :: s) → (c = 32 ∧ isspace c = true) ∨ (is_lower c = true ∧ isspace c = false).
Proof.
  simpl. destruct (isspace c);
    [intros (_ & ? & _); by left | intros [? _]; by right].
Qed.

Lemma lower_tidy b s : tidy b s → lower s = s.
Proof.
  revert b. induction s as [|c s IH]; intros b Hs; [done |].
  unfold lower. simpl. fold (lower s).
  assert (lower_cp c = [c]) as ->.
  { apply tidy_char in Hs. unfold lower_cp, is_upper, is_lower in *.
    repeat case_match; done || lia. }
  simpl in *. f_equal. tidy_tail Hs; by eapply IH.
Qed.

Lemma sub_non_letters_tidy b s : tidy b s → sub_non_letters s = s.
Proof.
  revert b. induction s as [|c s IH]; intros b Hs; [done |].
  simpl. f_equal.
  - apply tidy_char in Hs. unfold is_letter.
    destruct Hs as [[_ ->]|[-> _]]; [by rewrite orb_true_r | done].
  - simpl in Hs. tidy_tail Hs; by eapply IH.
Qed.

Lemma sub_spaces_tidy b s : tidy b s → sub_spaces b s = s.
Proof.
  revert b. induction s as [|c s IH]; intros b Hs; [done |].
  simpl in *. destruct (isspace c).
  - destruct Hs as (-> & -> & Hs). f_equal. by apply IH.
  - destruct Hs as (_ & Hs). f_equal. by apply IH.
Qed.

Lemma rstrip_idemp s : rstrip (rstrip s) = rstrip s.
Proof.
  induction s as [|c s IH]; [done |]. simpl.
  destruct (rstrip s) as [|y r] eqn:Hr.
  - destruct (isspace c) eqn:Hsp; simpl; [done | by rewrite Hsp].
  - change (rstrip (c :: y :: r)) with
      (match rstrip (y :: r) with
       | [] => if isspace c then [] else [c]
       | r' => c :: r'
       end).
    by rewrite IH.
Qed.

Lemma rstrip_head c s :
  isspace c = false → ∃ r, rstrip (c :: s) = c :: r.
Proof. intros Hsp. simpl. rewrite Hsp. destruct (rstrip s); eauto. Qed.

Lemma lstrip_head s :
  lstrip s = [] ∨ ∃ c r, lstrip s = c :: r ∧ isspace c = false.
Proof.
  induction s as [|c s IH]; [by left |]. simpl.
  destruct (isspace c) eqn:Hsp; [done | right; eauto].
Qed.

Lemma strip_idemp s : strip (strip s) = strip s.
Proof.
  unfold strip.
  assert (lstrip (rstrip (lstrip s)) = rstrip (lstrip s)) as ->.
  { destruct (lstrip_head s) as [->|(c & r & -> & Hsp)]; [done |].
    destruct (rstrip_head c r Hsp) as [r' ->]. simpl. by rewrite Hsp. }
  apply rstrip_idemp.
Qed.
End normalisation.

(** C6: [clean_text] is idempotent: cleaning a cleaned text gives it back,
    where cleaning lowers the case, blanks every character that is neither
    an ASCII letter nor white space, makes each run of white space one
    space and trims both ends. *)
Theorem clean_text_idempotent (text : str) :
  clean_text (clean_text text) = clean_text text.
Proof.
  pose proof (tidy_clean_text text) as Htidy.
  unfold clean_text at 1.
  rewrite (lower_tidy _ _ Htidy), (sub_non_letters_tidy _ _ Htidy).
  rewrite (sub_spaces_tidy _ _ Htidy).
  unfold clean_text. apply strip_idemp.
Qed.

(** ** The most common words *)

Section ranking.
Implicit Types (d l : items) (w k : str) (words : list str) (x y : str * Z).

Lemma first_index_elem_of w words :
  w ∈ words → (first_index w words < length words)%nat.
Proof.
  induction words as [|x words IH]; [by intros ?%elem_of_nil |].
  intros Hin. simpl. destruct (decide (x = w)) as [|Hne]; [lia |].
  apply elem_of_cons in Hin as [?|Hin]; [done |]. apply IH in Hin. lia.
Qed.

Lemma first_index_app_l w words words' :
  w ∈ words → first_index w (words ++ words') = first_index w words.
Proof.
  induction words as [|x words IH]; [by intros ?%elem_of_nil |].
  intros Hin. simpl. destruct (decide (x = w)) as [|Hne]; [done |].
  apply elem_of_cons in Hin as [?|Hin]; [done |]. by rewrite IH.
Qed.

Lemma first_index_snoc_new w words :
  w ∉ words → first_index w (words ++ [w]) = length words.
Proof.
  induction words as [|x words IH]; intros Hnin; simpl.
  - by rewrite decide_True.
  - apply not_elem_of_cons in Hnin as [Hne Hnin].
    rewrite decide_False by done. by rewrite IH.
Qed.

Lemma StronglySorted_impl_elem_of {A} (R R' : relation A) (l : list A) :
  (∀ a b, a ∈ l → b ∈ l → R a b → R' a b) →
  StronglySorted R l → StronglySorted R' l.
Proof.
  intros Himpl Hl. induction Hl as [|a l Hl IH Ha]; constructor.
  - apply IH. intros ? ? ? ?. apply Himpl; by right.
  - apply Forall_forall. intros b Hb. apply Himpl; [left | by right |].
    by eapply Forall_forall in Ha.
Qed.

(** The keys of a counter stand in the order in which they were first
    met. *)
Lemma keys_Counter_sorted words :
  StronglySorted
    (fun k1 k2 => (first_index k1 words < first_index k2 words)%nat)
    (keys (Counter words)).
Proof.
  induction words as [|w words IH] using rev_ind; [constructor |].
  assert (StronglySorted
    (fun k1 k2 =>
       (first_index k1 (words ++ [w]) < first_index k2 (words ++ [w]))%nat)
    (keys (Counter words))) as Hold.
  { eapply StronglySorted_impl_elem_of; [| exact IH].
    intros a b Ha Hb Hab. simpl in *.
    apply (proj1 (elem_of_keys_Counter words a)) in Ha.
    apply (proj1 (elem_of_keys_Counter words b)) in Hb.
    by rewrite !first_index_app_l. }
  rewrite Counter_snoc, keys_Counter_count.
  destruct (decide (w ∈ keys (Counter words))) as [Hin|Hnin]; [done |].
  apply StronglySorted_app_2; [| done | repeat constructor].
  intros k ? Hk ->%list_elem_of_singleton.
  apply (proj1 (elem_of_keys_Counter words k)) in Hk.
  rewrite first_index_app_l by done.
  rewrite first_index_snoc_new by (by rewrite <- elem_of_keys_Counter).
  by apply first_index_elem_of.
Qed.

Lemma Counter_sorted words : StronglySorted (met_before words) (Counter words).
Proof.
  pose proof (keys_Counter_sorted words) as Hkeys. unfold keys in Hkeys.
  induction (Counter words) as [|x d IH]; [constructor |].
  simpl in Hkeys. apply StronglySorted_inv in Hkeys as [Hd Hx].
  constructor; [by apply IH |].
  rewrite Forall_map in Hx. exact Hx.
Qed.

Lemma occurrences_snoc words w k :
  occurrences k (words ++ [w])
  = occurrences k words + (if decide (w = k) then 1 else 0).
Proof.
  unfold occurrences, len. rewrite filter_app, length_app.
  unfold filter at 2. simpl. destruct (decide (w = k)); simpl; lia.
Qed.

Lemma Counter_get_Counter words k :
  Counter_get (Counter words) k = occurrences k words.
Proof.
  induction words as [|w words IH] using rev_ind; [done |].
  by rewrite Counter_snoc, Counter_get_Counter_count, occurrences_snoc, IH.
Qed.

Lemma Counter_get_elem_of d k v :
  NoDup (keys d) → (k, v) ∈ d → Counter_get d k = v.
Proof.
  induction d as [|[k' v'] d IH]; [by intros _ ?%elem_of_nil |].
  simpl. intros [Hk' Hd]%NoDup_cons [Heq|Hin]%elem_of_cons.
  - injection Heq as -> ->. by rewrite decide_True.
  - rewrite decide_False; [by apply IH |].
    intros ->. apply Hk'. unfold keys.
    apply list_elem_of_fmap. by exists (k, v).
Qed.

Lemma elem_of_Counter words k v :
  (k, v) ∈ Counter words ↔ k ∈ words ∧ v = occurrences k words.
Proof.
  split.
  - intros Hin. split.
    + apply elem_of_keys_Counter. unfold keys.
      apply list_elem_of_fmap. by exists (k, v).
    + rewrite <- Counter_get_Counter. symmetry.
      apply Counter_get_elem_of; [apply NoDup_keys_Counter | done].
  - intros [Hk ->]. apply elem_of_keys_Counter in Hk. unfold keys in Hk.
    apply list_elem_of_fmap in Hk as ([k' v'] & -> & Hin). simpl.
    rewrite <- Counter_get_Counter.
    by rewrite (Counter_get_elem_of _ _ _ (NoDup_keys_Counter words) Hin).
Qed.

Lemma insert_desc_perm x l : insert_desc x l ≡ₚ x :: l.
Proof.
  induction l as [|y l IH]; simpl; [done |].
  destruct (x.2 <? y.2); [| done]. rewrite IH. apply Permutation_swap.
Qed.

Lemma sorted_desc_perm d : sorted_desc d ≡ₚ d.
Proof.
  induction d as [|x d IH]; simpl; [done |].
  by rewrite insert_desc_perm, IH.
Qed.

Lemma ranks_before_count words x y : ranks_before words x y → y.2 ≤ x.2.
Proof. intros [?|[? _]]; lia. Qed.

Lemma insert_desc_sorted words x l :
  StronglySorted (ranks_before words) l →
  Forall (met_before words x) l →
  StronglySorted (ranks_before words) (insert_desc x l).
Proof.
  intros Hl Hx. induction Hl as [|y l Hl IH Hy]; simpl.
  { repeat constructor. }
  apply Forall_cons in Hx as [Hxy Hx].
  destruct (Z.ltb_spec x.2 y.2) as [Hlt|Hge].
  - constructor; [by apply IH |].
    rewrite insert_desc_perm. constructor; [by left | done].
  - constructor; [by constructor |].
    apply Forall_forall. intros z Hz.
    assert (z.2 ≤ y.2) as Hzy.
    { apply elem_of_cons in Hz as [->|Hz]; [lia |].
      eapply Forall_forall in Hy; [| exact Hz].
      by apply ranks_before_count in Hy. }
    destruct (decide (z.2 < x.2)) as [|Hnlt]; [by left |].
    right. split; [lia |].
    apply elem_of_cons in Hz as [->|Hz]; [done |].
    by eapply Forall_forall in Hx.
Qed.

Lemma sorted_desc_sorted words d :
  StronglySorted (met_before words) d →
  StronglySorted (ranks_before words) (sorted_desc d).
Proof.
  intros Hd. induction Hd as [|x d Hd IH Hx]; simpl; [constructor |].
  apply insert_desc_sorted; [done |]. by rewrite sorted_desc_perm.
Qed.

Lemma StronglySorted_lookup {A} (R : relation A) (l : list A) i j a b :
  StronglySorted R l → (i < j)%nat →
  l !! i = Some a → l !! j = Some b → R a b.
Proof.
  intros Hl Hij Hi Hj. rewrite <- (take_drop j l) in Hl.
  eapply StronglySorted_app_1_elem_of; [exact Hl | |].
  - apply elem_of_take. eauto.
  - apply list_elem_of_lookup. exists 0%nat.
    by rewrite lookup_drop, Nat.add_0_r.
Qed.
End ranking.

(** C4: for every text and stop-word flag, [most_common_words] holds at most
    ten pairs of a word of the tokenized text and its count there, in
    descending order of the counts, two words of equal count standing in the
    order in which they were first met in the tokenized text; and a word
    that is left out comes, in that same order, after every pair that is
    listed, which happens only when ten pairs are listed. *)
Theorem most_common_words_ranked (text : str) (include_stop_words : bool) :
  let words := extract_words text include_stop_words in
  let top := most_common_words (analyze_text text include_stop_words) in
  (length top ≤ 10)%nat
  ∧ (∀ w c, (w, c) ∈ top → w ∈ words ∧ c = occurrences w words)
  ∧ (∀ i j a b, (i < j)%nat → top !! i = Some a → top !! j = Some b →
        ranks_before words a b)
  ∧ (∀ w, w ∈ words → w ∉ keys top →
        length top = 10%nat
        ∧ ∀ a, a ∈ top → ranks_before words a (w, occurrences w words)).
Proof.
  intros words top. subst top. simpl. fold words. unfold most_common.
  pose proof (sorted_desc_sorted words _ (Counter_sorted words)) as Hsorted.
  pose proof (sorted_desc_perm (Counter words)) as Hperm.
  set (ranked := sorted_desc (Counter words)) in *.
  split_and!.
  - rewrite length_take. lia.
  - intros w c Hin%subseteq_take. rewrite Hperm in Hin.
    by apply elem_of_Counter.
  - intros i j a b Hij Hi Hj.
    apply lookup_take_Some in Hi as [Hi _].
    apply lookup_take_Some in Hj as [Hj _].
    by eapply StronglySorted_lookup.
  - intros w Hw Hnin.
    assert ((w, occurrences w words) ∈ drop 10 ranked) as Hrest.
    { assert ((w, occurrences w words) ∈ ranked) as Hin.
      { rewrite Hperm. by apply elem_of_Counter. }
      rewrite <- (take_drop 10 ranked) in Hin.
      apply elem_of_app in Hin as [Hin|Hin]; [| done].
      destruct Hnin. unfold keys. apply list_elem_of_fmap.
      by exists (w, occurrences w words). }
    split.
    + rewrite length_take. apply list_elem_of_lookup in Hrest as [i Hi].
      rewrite lookup_drop in Hi. apply lookup_lt_Some in Hi. lia.
    + intros a Ha. rewrite <- (take_drop 10 ranked) in Hsorted.
      by eapply StronglySorted_app_1_elem_of.
Qed.


(** * Further properties *)

(** ** Character statistics *)

Section character_stats.
Implicit Types (text : str) (c : Z) (p q : Z → bool).

Lemma keep_cons p c text :
  keep p (c :: text) = if p c then c :: keep p text else keep p text.
Proof. unfold keep. rewrite filter_cons. by destruct (p c). Qed.

Lemma len_keep_app p text1 text2 :
  len (keep p (text1 ++ text2)) = len (keep p text1) + len (keep p text2).
Proof. unfold len, keep. rewrite filter_app, length_app. lia. Qed.

Lemma len_keep_nonneg p text : 0 ≤ len (keep p text).
Proof. unfold len. lia. Qed.

(** The four classes letter, digit, white space and everything else split
    the characters of a text. *)
Lemma len_keep_classes text :
  len text
  = len (keep is_letter text) + len (keep is_digit text)
    + len (keep isspace text)
    + len (keep (fun c => negb (is_letter c || is_digit c || isspace c)) text).
Proof.
  induction text as [|c text IH]; [done |].
  rewrite !keep_cons. unfold len in *. simpl length.
  destruct (is_letter c) eqn:Hl, (is_digit c) eqn:Hd, (isspace c) eqn:Hs;
    simpl; try lia;
    unfold is_letter, is_lower, is_upper, is_digit, isspace in *; lia.
Qed.

Lemma len_keep_space text :
  len text = len (keep (fun c => negb (c =? 32)) text)
             + len (keep (fun c => c =? 32) text)
  ∧ len (keep (fun c => c =? 32) text) ≤ len (keep isspace text).
Proof.
  induction text as [|c text [IH1 IH2]]; [done |].
  rewrite !keep_cons. unfold len in *. simpl length.
  destruct (c =? 32) eqn:Hc, (isspace c) eqn:Hs; simpl; try lia.
  unfold isspace in *. lia.
Qed.
End character_stats.

(** X1: the character counts of a text fit together: the total is the
    count without spaces plus the spaces; letters, digits, punctuation and
    white-space characters add up to the total; so the four buckets
    letters, digits, spaces and punctuation never exceed the total, and
    the gap is the white space that is not the space character. *)
Theorem count_characters_buckets (text : str) :
  let cs := count_characters text in
  total_chars cs = chars_no_spaces cs + spaces cs
  ∧ total_chars cs
    = alphabetic_chars cs + numeric_chars cs + punctuation cs
      + len (keep isspace text)
  ∧ alphabetic_chars cs + numeric_chars cs + spaces cs + punctuation cs
    ≤ total_chars cs
  ∧ 0 ≤ alphabetic_chars cs ∧ 0 ≤ numeric_chars cs ∧ 0 ≤ spaces cs
  ∧ 0 ≤ punctuation cs ∧ 0 ≤ chars_no_spaces cs.
Proof.
  simpl. pose proof (len_keep_classes text) as Hclasses.
  destruct (len_keep_space text) as [Hsp Hle].
  split_and!; try apply len_keep_nonneg; lia.
Qed.

(** X2: every character count of a concatenation is the sum of the counts
    of its two parts. *)
Theorem count_characters_app (text1 text2 : str) :
  let cs := count_characters (text1 ++ text2) in
  let cs1 := count_characters text1 in
  let cs2 := count_characters text2 in
  total_chars cs = total_chars cs1 + total_chars cs2
  ∧ chars_no_spaces cs = chars_no_spaces cs1 + chars_no_spaces cs2
  ∧ alphabetic_chars cs = alphabetic_chars cs1 + alphabetic_chars cs2
  ∧ numeric_chars cs = numeric_chars cs1 + numeric_chars cs2
  ∧ spaces cs = spaces cs1 + spaces cs2
  ∧ punctuation cs = punctuation cs1 + punctuation cs2.
Proof.
  simpl. split_and!; try apply len_keep_app.
  unfold len. rewrite length_app. lia.
Qed.

(** ** The frequency table *)

Section frequency.
Implicit Types (w : str) (words : list str).

Lemma occurrences_nonneg w words : 0 ≤ occurrences w words.
Proof. unfold occurrences, len. lia. Qed.

Lemma occurrences_pos w words : 0 < occurrences w words ↔ w ∈ words.
Proof.
  unfold occurrences, len. induction words as [|x words IH].
  - simpl. split; [lia | by intros ?%elem_of_nil].
  - rewrite filter_cons, elem_of_cons. destruct (decide (x = w)) as [->|Hne].
    + simpl. split; [by left | lia].
    + rewrite IH. split; [by right | by intros [?|?]].
Qed.

Lemma list_to_set_keys_Counter words :
  list_to_set (keys (Counter words)) =@{gset str} list_to_set words.
Proof.
  apply set_eq. intros w. rewrite !elem_of_list_to_set.
  apply elem_of_keys_Counter.
Qed.

Lemma length_Counter_distinct words :
  length (Counter words) = size (list_to_set words : gset str).
Proof.
  rewrite <- list_to_set_keys_Counter.
  rewrite size_list_to_set by apply NoDup_keys_Counter.
  unfold keys. by rewrite length_map.
Qed.
End frequency.

(** X3: looking a word up in the [word_frequency] of a result gives the
    number of times it occurs among the extracted words; that is 0 exactly
    for the words that do not occur. *)
Theorem word_frequency_lookup (text : str) (include_stop_words : bool)
    (w : str) :
  let words := extract_words text include_stop_words in
  let freq :=
    mapping_items (word_frequency (analyze_text text include_stop_words)) in
  Counter_get freq w = occurrences w words
  ∧ (Counter_get freq w = 0 ↔ w ∉ words)
  ∧ (w ∈ keys freq ↔ w ∈ words).
Proof.
  simpl. rewrite Counter_get_Counter. split_and!; [done | |].
  - rewrite <- occurrences_pos.
    pose proof (occurrences_nonneg w (extract_words text include_stop_words)).
    lia.
  - apply elem_of_keys_Counter.
Qed.

(** X4: [unique_words] is the number of distinct extracted words, and it is
    0 exactly when [word_count] is. *)
Theorem unique_words_distinct (text : str) (include_stop_words : bool) :
  let a := analyze_text text include_stop_words in
  unique_words a
  = Z.of_nat (size (list_to_set (extract_words text include_stop_words)
                    : gset str))
  ∧ (unique_words a = 0 ↔ word_count a = 0).
Proof.
  simpl. unfold len. rewrite length_Counter_distinct. split; [done |].
  destruct (extract_words text include_stop_words) as [|w words]; [done |].
  simpl length. split; [| lia]. intros Hsize.
  assert (size (list_to_set (w :: words) : gset str) = 0%nat) as Hempty by lia.
  apply size_empty_iff in Hempty.
  exfalso. apply (not_elem_of_empty (C := gset str) w). rewrite <- Hempty.
  apply elem_of_list_to_set. left.
Qed.

(** X5: [most_common_words] lists ten pairs, or all of them when the text
    has fewer than ten distinct words. *)
Theorem most_common_words_length (text : str) (include_stop_words : bool) :
  let a := analyze_text text include_stop_words in
  len (most_common_words a) = Z.min 10 (unique_words a).
Proof.
  simpl. unfold len, most_common.
  rewrite length_take, (Permutation_length (sorted_desc_perm _)). lia.
Qed.

(** ** Cleaned text and words *)

Section words.
Implicit Types (s text p w : str) (c : Z) (b : bool) (l pieces : list str).

Lemma tidy_Forall b s :
  tidy b s → Forall (fun c => is_lower c = true ∨ c = 32) s.
Proof.
  revert b. induction s as [|c s IH]; intros b Hs; [constructor |].
  simpl in Hs. destruct (isspace c).
  - destruct Hs as (_ & -> & Hs). constructor; [by right | by eapply IH].
  - destruct Hs as (Hlow & Hs). constructor; [by left | by eapply IH].
Qed.

Lemma tidy_no_double_space b s i :
  tidy b s → s !! i = Some 32 → s !! S i ≠ Some 32.
Proof.
  revert b i. induction s as [|c s IH]; intros b i Hs Hi; [done |].
  simpl in Hs. destruct i as [|i].
  - injection Hi as ->. change (isspace 32) with true in Hs.
    destruct Hs as (_ & _ & Hs). destruct s as [|d s]; [done |].
    simpl. intros [= ->]. simpl in Hs. change (isspace 32) with true in Hs.
    by destruct Hs.
  - simpl in Hi.
    destruct (isspace c);
      [destruct Hs as (_ & _ & Hs) | destruct Hs as (_ & Hs)]; by eapply IH.
Qed.

Lemma tidy_true_lstrip s : tidy true s → lstrip s = s.
Proof.
  destruct s as [|c s]; [done |]. simpl.
  destruct (isspace c); [by intros [? _] | done].
Qed.

Lemma head_strip s c : head (strip s) = Some c → isspace c = false.
Proof.
  unfold strip. destruct (lstrip_head s) as [->|(d & r & -> & Hsp)]; [done |].
  destruct (rstrip_head d r Hsp) as [r' ->]. by intros [= <-].
Qed.

Lemma last_rstrip s c : last (rstrip s) = Some c → isspace c = false.
Proof.
  induction s as [|x s IH]; [done |]. simpl.
  destruct (rstrip s) as [|y r].
  - destruct (isspace x) eqn:Hsp; [done | by intros [= <-]].
  - change (last (x :: y :: r)) with (last (y :: r)). exact IH.
Qed.

Lemma last_strip s c : last (strip s) = Some c → isspace c = false.
Proof. apply last_rstrip. Qed.

Lemma clean_text_fixed s : tidy false s → strip s = s → clean_text s = s.
Proof.
  intros Htidy Hstrip. unfold clean_text.
  by rewrite (lower_tidy _ _ Htidy), (sub_non_letters_tidy _ _ Htidy),
    (sub_spaces_tidy _ _ Htidy).
Qed.

Lemma clean_text_clean_text text : clean_text (clean_text text) = clean_text text.
Proof.
  apply clean_text_fixed; [apply tidy_clean_text |].
  unfold clean_text. apply strip_idemp.
Qed.

(** The pieces of a split hold characters of the text that are not
    separators. *)
Lemma split_runs_pieces sep b s p :
  p ∈ split_runs sep b s → Forall (fun c => c ∈ s ∧ sep c = false) p.
Proof.
  revert b p. induction s as [|c s IH]; intros b p Hp; simpl in Hp.
  - apply list_elem_of_singleton in Hp as ->. constructor.
  - assert (∀ b' q, q ∈ split_runs sep b' s →
              Forall (fun x => x ∈ c :: s ∧ sep x = false) q) as IH'.
    { intros b' q Hq. eapply Forall_impl; [by eapply IH |].
      intros x [? ?]. split; [by right | done]. }
    destruct (sep c) eqn:Hsep.
    + destruct b; [by eapply IH' |].
      apply elem_of_cons in Hp as [->|Hp]; [constructor | by eapply IH'].
    + destruct (split_runs sep false s) as [|q qs] eqn:Hsplit; simpl in Hp.
      * apply list_elem_of_singleton in Hp as ->.
        constructor; [split; [left | done] | constructor].
      * apply elem_of_cons in Hp as [->|Hp].
        -- constructor; [split; [left | done] |].
           apply (IH' false). rewrite Hsplit. left.
        -- apply (IH' false). rewrite Hsplit. by right.
Qed.

Lemma filter_nonempty_cons p l :
  filter (fun w => Is_true (nonempty w)) (p :: l)
  = if nonempty p then p :: filter (fun w => Is_true (nonempty w)) l
    else filter (fun w => Is_true (nonempty w)) l.
Proof. rewrite filter_cons. by destruct (nonempty p). Qed.

Lemma split_in_run s :
  filter (fun w => Is_true (nonempty w)) (split_runs isspace true s) = split s.
Proof.
  unfold split. destruct s as [|c s]; [done |]. simpl.
  destruct (isspace c); [| done]. by rewrite filter_nonempty_cons.
Qed.

Lemma split_nonempty s w : w ∈ split s → w ≠ [].
Proof.
  unfold split. intros [Hne _]%list_elem_of_filter. by destruct w.
Qed.

Lemma join_cons_cons sep c p l : join sep ((c :: p) :: l) = c :: join sep (p :: l).
Proof. simpl. by destruct l. Qed.

Lemma join_nil_inv sep l : Forall (fun w => w ≠ []) l → join sep l = [] → l = [].
Proof.
  destruct l as [|[|c p] l]; [done | |].
  - by intros [? _]%Forall_cons.
  - rewrite join_cons_cons. done.
Qed.

Lemma split_space_cons c s : isspace c = true → split (c :: s) = split s.
Proof.
  intros Hsp. unfold split at 1. simpl. rewrite Hsp.
  rewrite filter_nonempty_cons. simpl. apply split_in_run.
Qed.

Lemma split_letter_cons c s :
  isspace c = false →
  split (c :: s)
  = match split_runs isspace false s with
    | [] => [[c]]
    | p :: l => (c :: p) :: filter (fun w => Is_true (nonempty w)) l
    end.
Proof.
  intros Hsp. unfold split. simpl. rewrite Hsp.
  destruct (split_runs isspace false s); simpl; by rewrite filter_nonempty_cons.
Qed.

(** Joining the words of a tidy text with single spaces gives the text
    without its outer spaces. *)
Lemma join_split_tidy b s : tidy b s → join [32] (split s) = strip s.
Proof.
  revert b. induction s as [|c s IH]; intros b Hs; [done |].
  simpl in Hs. destruct (isspace c) eqn:Hsp.
  - destruct Hs as (_ & _ & Hs). rewrite (split_space_cons _ _ Hsp).
    unfold strip. simpl. rewrite Hsp. by eapply IH.
  - destruct Hs as (_ & Hs). specialize (IH _ Hs).
    rewrite (split_letter_cons _ _ Hsp).
    unfold strip. simpl lstrip. rewrite Hsp. simpl rstrip. rewrite Hsp.
    destruct s as [|d s]; [done |].
    simpl in Hs. destruct (isspace d) eqn:Hd.
    + destruct Hs as (_ & -> & Hs). clear Hd.
      assert (strip (32 :: s) = rstrip s) as Hstrip.
      { unfold strip. simpl lstrip. change (isspace 32) with true.
        cbv iota. by rewrite (tidy_true_lstrip _ Hs). }
      rewrite (split_space_cons 32 s), Hstrip in IH by done.
      change (split_runs isspace false (32 :: s))
        with ([] :: split_runs isspace true s).
      cbv iota. rewrite split_in_run.
      change (rstrip (32 :: s))
        with (match rstrip s with [] => [] | r => 32 :: r end).
      rewrite <- IH.
      destruct (split s) as [|w ws] eqn:Hsplit; [done |].
      assert (join [32] (w :: ws) ≠ []) as Hne.
      { intros Hnil. apply join_nil_inv in Hnil; [done |].
        apply Forall_forall. intros x Hx. apply (split_nonempty s).
        by rewrite Hsplit. }
      change (join [32] ([c] :: w :: ws))
        with ([c] ++ [32] ++ join [32] (w :: ws)).
      by destruct (join [32] (w :: ws)).
    + rewrite (split_letter_cons _ _ Hd) in IH.
      unfold strip in IH. simpl lstrip in IH. rewrite Hd in IH.
      destruct (rstrip_head d s Hd) as [r Hr].
      rewrite Hr in *. simpl split_runs. rewrite Hd.
      destruct (split_runs isspace false s) as [|q qs]; unfold push; cbv iota.
      * simpl in *. by rewrite <- IH.
      * rewrite join_cons_cons. by rewrite IH.
Qed.

Lemma extract_words_all text : extract_words text true = split (clean_text text).
Proof.
  unfold extract_words, split. simpl.
  by rewrite list_filter_filter_l.
Qed.

Lemma extract_words_stop text :
  extract_words text false
  = filter (fun word => word ∉ stop_words) (extract_words text true).
Proof.
  rewrite extract_words_all. unfold extract_words, split. simpl.
  rewrite !list_filter_filter. apply list_filter_iff. tauto.
Qed.
End words.

(** X6: what [clean_text] returns holds only lower-case ASCII letters and
    spaces, neither begins nor ends with a space, and has no two spaces in
    a row. *)
Theorem clean_text_shape (text : str) :
  let s := clean_text text in
  Forall (fun c => is_lower c = true ∨ c = 32) s
  ∧ head s ≠ Some 32
  ∧ last s ≠ Some 32
  ∧ ∀ i, s !! i = Some 32 → s !! S i ≠ Some 32.
Proof.
  simpl. pose proof (tidy_clean_text text) as Htidy. split_and!.
  - by eapply tidy_Forall.
  - intros Hhead. by apply head_strip in Hhead.
  - intros Hlast. by apply last_strip in Hlast.
  - intros i. by eapply tidy_no_double_space.
Qed.

(** X7: every word that [extract_words] returns is a non-empty string of
    lower-case ASCII letters. *)
Theorem extract_words_letters (text : str) (include_stop_words : bool)
    (w : str) :
  w ∈ extract_words text include_stop_words →
  w ≠ [] ∧ Forall (fun c => is_lower c = true) w.
Proof.
  intros Hw.
  assert (w ∈ split (clean_text text)) as Hsplit.
  { destruct include_stop_words.
    - by rewrite <- extract_words_all.
    - rewrite extract_words_stop, extract_words_all in Hw.
      by apply list_elem_of_filter in Hw as [_ Hw]. }
  split; [by eapply split_nonempty |].
  pose proof (tidy_Forall _ _ (tidy_clean_text text)) as Hchars.
  unfold split in Hsplit. apply list_elem_of_filter in Hsplit as [_ Hpiece].
  apply split_runs_pieces in Hpiece.
  eapply Forall_impl; [exact Hpiece |]. intros c [Hc Hsp]. simpl.
  eapply Forall_forall in Hchars; [| exact Hc].
  destruct Hchars as [?|Heq]; [done |]. rewrite Heq in Hsp. discriminate Hsp.
Qed.

Lemma extract_words_letters_witness :
  s_ "fox" ≠ [] ∧ Forall (fun c => is_lower c = true) (s_ "fox").
Proof.
  apply (extract_words_letters scenario false (s_ "fox")).
  vm_compute. do 2 right. left.
Defined.

(** X8: with stop words excluded [extract_words] returns the words it
    returns with stop words included, in the same order, less the stop
    words; none of them is a stop word, and there are no more of them. *)
Theorem extract_words_without_stop_words (text : str) :
  extract_words text false
  = filter (fun word => word ∉ stop_words) (extract_words text true)
  ∧ Forall (fun word => word ∉ stop_words) (extract_words text false)
  ∧ word_count (analyze_text text false) ≤ word_count (analyze_text text true).
Proof.
  split_and!.
  - apply extract_words_stop.
  - rewrite extract_words_stop. apply Forall_forall.
    by intros w [? _]%list_elem_of_filter.
  - simpl. unfold len. rewrite extract_words_stop.
    pose proof (length_filter (fun word => word ∉ stop_words)
                  (extract_words text true)). lia.
Qed.

(** X9: the cleaned text is the extracted words joined by single spaces. *)
Theorem join_extract_words (text : str) :
  join [32] (extract_words text true) = clean_text text.
Proof.
  rewrite extract_words_all, (join_split_tidy false) by apply tidy_clean_text.
  unfold clean_text. apply strip_idemp.
Qed.

(** X10: cleaning a text first does not change what is extracted from it:
    the words, and with them the word statistics of the analysis, are the
    same for a text and for its cleaned form. *)
Theorem analyze_text_clean_text (text : str) (include_stop_words : bool) :
  let a := analyze_text text include_stop_words in
  let a' := analyze_text (clean_text text) include_stop_words in
  extract_words (clean_text text) include_stop_words
  = extract_words text include_stop_words
  ∧ word_count a' = word_count a
  ∧ unique_words a' = unique_words a
  ∧ word_frequency a' = word_frequency a
  ∧ most_common_words a' = most_common_words a.
Proof.
  assert (extract_words (clean_text text) include_stop_words
          = extract_words text include_stop_words) as Heq.
  { unfold extract_words. by rewrite clean_text_clean_text. }
  simpl. by rewrite Heq.
Qed.

(** ** Sentences and paragraphs *)

Section pieces.
Implicit Types (s text p : str) (c x : Z) (b : bool) (l pieces : list str).

Lemma lstrip_spaces s : Forall (fun c => isspace c = true) s → lstrip s = [].
Proof. induction 1 as [|c s Hc _ IH]; simpl; [done | by rewrite Hc]. Qed.

Lemma strip_spaces s : Forall (fun c => isspace c = true) s → strip s = [].
Proof. intros Hs. unfold strip. by rewrite lstrip_spaces. Qed.

Lemma sub_spaces_spaces b s :
  Forall (fun c => isspace c = true) s →
  Forall (fun c => isspace c = true) (sub_spaces b s).
Proof.
  intros Hs. revert b. induction Hs as [|c s Hc _ IH]; intros b; simpl.
  - constructor.
  - rewrite Hc. destruct b; [apply IH | constructor; [done | apply IH]].
Qed.

(** A text without ASCII letters, U+0130 and U+212A has no words. *)
Lemma extract_words_no_letters text include_stop_words :
  Forall (fun c => is_letter c = false ∧ c ≠ 0x130 ∧ c ≠ 0x212A) text →
  extract_words text include_stop_words = [].
Proof.
  intros Htext.
  assert (clean_text text = []) as Hclean.
  { unfold clean_text. apply strip_spaces, sub_spaces_spaces.
    unfold sub_non_letters, lower. apply Forall_map, Forall_concat, Forall_map.
    eapply Forall_impl; [exact Htext |]. intros c (Hl & H1 & H2). simpl.
    unfold lower_cp.
    replace (is_upper c) with false by (unfold is_letter in Hl; lia).
    replace (c =? 0x130) with false by lia.
    replace (c =? 0x212A) with false by lia.
    constructor; [| constructor]. rewrite Hl. simpl.
    by destruct (isspace c) eqn:Hsp. }
  unfold extract_words. rewrite Hclean. by destruct include_stop_words.
Qed.

Lemma elem_of_push_head x pieces : ∃ p, p ∈ push x pieces ∧ x ∈ p.
Proof.
  destruct pieces as [|w ws]; simpl.
  - exists [x]. split; left.
  - exists (x :: w). split; left.
Qed.

Lemma elem_of_push x pieces p c :
  p ∈ pieces → c ∈ p → ∃ p', p' ∈ push x pieces ∧ c ∈ p'.
Proof.
  destruct pieces as [|w ws]; [by intros ?%elem_of_nil |]. simpl.
  intros [->|Hp]%elem_of_cons Hc.
  - exists (x :: w). split; [left | by right].
  - exists p. split; [by right | done].
Qed.

Lemma elem_of_push_inv x pieces p c :
  p ∈ push x pieces → c ∈ p → c = x ∨ ∃ p', p' ∈ pieces ∧ c ∈ p'.
Proof.
  destruct pieces as [|w ws]; simpl.
  - intros ->%list_elem_of_singleton ->%list_elem_of_singleton. by left.
  - intros [->|Hp]%elem_of_cons Hc.
    + apply elem_of_cons in Hc as [->|Hc]; [by left | right].
      exists w. split; [left | done].
    + right. exists p. split; [by right | done].
Qed.

(** A character that is no separator lies in some piece of the split. *)
Lemma split_runs_covers sep b s c :
  c ∈ s → sep c = false → ∃ p, p ∈ split_runs sep b s ∧ c ∈ p.
Proof.
  revert b. induction s as [|x s IH]; intros b Hc Hsep;
    [by apply elem_of_nil in Hc |].
  simpl. destruct (sep x) eqn:Hx.
  - apply elem_of_cons in Hc as [->|Hc]; [congruence |].
    destruct (IH true Hc Hsep) as (p & Hp & Hcp).
    exists p. split; [| done]. destruct b; [done | by right].
  - apply elem_of_cons in Hc as [->|Hc]; [apply elem_of_push_head |].
    destruct (IH false Hc Hsep) as (p & Hp & Hcp).
    by eapply elem_of_push.
Qed.

Lemma split_nn_covers_pair s :
  (∀ c, c ∈ s → c ≠ 10 → ∃ p, p ∈ split_nn s ∧ c ∈ p)
  ∧ (∀ x c, c ∈ x :: s → c ≠ 10 → ∃ p, p ∈ split_nn (x :: s) ∧ c ∈ p).
Proof.
  induction s as [|d s [IH1 IH2]].
  - split; [by intros c ?%elem_of_nil |].
    intros x c ->%list_elem_of_singleton _. exists [x]. split; left.
  - split; [apply IH2 |]. intros x c Hc Hne.
    change (split_nn (x :: d :: s))
      with (if (x =? 10) && (d =? 10) then [] :: split_nn s
            else push x (split_nn (d :: s))).
    destruct ((x =? 10) && (d =? 10)) eqn:Hnn.
    + assert (c ∈ s) as Hcs.
      { apply elem_of_cons in Hc as [->|Hc]; [lia |].
        apply elem_of_cons in Hc as [->|Hc]; [lia | done]. }
      destruct (IH1 c Hcs Hne) as (p & Hp & Hcp).
      exists p. split; [by right | done].
    + apply elem_of_cons in Hc as [->|Hc]; [apply elem_of_push_head |].
      destruct (IH2 d c Hc Hne) as (p & Hp & Hcp).
      by eapply elem_of_push.
Qed.

Lemma split_nn_pieces_pair s :
  (∀ p c, p ∈ split_nn s → c ∈ p → c ∈ s)
  ∧ (∀ x p c, p ∈ split_nn (x :: s) → c ∈ p → c ∈ x :: s).
Proof.
  induction s as [|d s [IH1 IH2]].
  - split.
    + by intros p c ->%list_elem_of_singleton ?%elem_of_nil.
    + by intros x p c ->%list_elem_of_singleton.
  - split; [apply IH2 |]. intros x p c Hp Hc.
    change (split_nn (x :: d :: s))
      with (if (x =? 10) && (d =? 10) then [] :: split_nn s
            else push x (split_nn (d :: s))) in Hp.
    destruct ((x =? 10) && (d =? 10)).
    + apply elem_of_cons in Hp as [->|Hp]; [by apply elem_of_nil in Hc |].
      do 2 right. by eapply IH1.
    + destruct (elem_of_push_inv _ _ _ _ Hp Hc) as [->|(p' & Hp' & Hc')];
        [left | right; by eapply IH2].
Qed.

Lemma elem_of_lstrip s c : c ∈ s → isspace c = false → c ∈ lstrip s.
Proof.
  induction s as [|x s IH]; [done |]. simpl. intros Hc Hsp.
  destruct (isspace x) eqn:Hx; [| done].
  apply elem_of_cons in Hc as [->|Hc]; [congruence | by apply IH].
Qed.

Lemma elem_of_rstrip s c : c ∈ s → isspace c = false → c ∈ rstrip s.
Proof.
  induction s as [|x s IH]; [done |]. simpl. intros Hc Hsp.
  apply elem_of_cons in Hc as [->|Hc].
  - destruct (rstrip s); [rewrite Hsp |]; left.
  - specialize (IH Hc Hsp).
    destruct (rstrip s); [by apply elem_of_nil in IH | by right].
Qed.

Lemma strip_not_nil s c : c ∈ s → isspace c = false → strip s ≠ [].
Proof.
  intros Hc Hsp Hnil.
  assert (c ∈ strip s) as Hin
    by (apply elem_of_rstrip; [by apply elem_of_lstrip | done]).
  rewrite Hnil in Hin. by apply elem_of_nil in Hin.
Qed.

Lemma stripped_nonempty_pos l p :
  p ∈ l → strip p ≠ [] → 1 ≤ len (stripped_nonempty l).
Proof.
  intros Hp Hne. unfold len, stripped_nonempty. rewrite length_map.
  assert (p ∈ filter (fun s => Is_true (nonempty (strip s))) l) as Hin.
  { apply list_elem_of_filter. split; [| done]. by destruct (strip p). }
  destruct (filter _ l); [by apply elem_of_nil in Hin | simpl; lia].
Qed.

Lemma stripped_nonempty_nil l :
  Forall (fun p => strip p = []) l → stripped_nonempty l = [].
Proof.
  intros Hl. unfold stripped_nonempty.
  induction Hl as [|p l Hp _ IH]; [done |].
  rewrite filter_cons, Hp. simpl. exact IH.
Qed.
End pieces.

(** X11: a text in which [analyze_text] finds a word has at least one
    sentence and at least one paragraph. *)
Theorem words_have_sentence (text : str) (include_stop_words : bool) :
  0 < word_count (analyze_text text include_stop_words) →
  1 ≤ sentence_count (analyze_text text include_stop_words)
  ∧ 1 ≤ paragraph_count (analyze_text text include_stop_words).
Proof.
  intros Hwords. simpl in *.
  destruct (decide (Forall (fun c => is_letter c = false ∧ c ≠ 0x130
                                     ∧ c ≠ 0x212A) text)) as [Hnone|Hsome].
  { rewrite extract_words_no_letters in Hwords by done. done. }
  apply not_Forall_Exists in Hsome; [| apply _].
  apply Exists_exists in Hsome as (c & Hc & Hletter). simpl in Hletter.
  assert (isspace c = false ∧ is_terminator c = false ∧ c ≠ 10)
    as (Hsp & Hterm & Hnl).
  { destruct (is_letter c) eqn:Hl.
    - unfold is_letter, is_lower, is_upper, isspace, is_terminator in *. lia.
    - assert (c = 0x130 ∨ c = 0x212A) as [-> | ->] by lia; done. }
  split.
  - destruct (split_runs_covers is_terminator false text c Hc Hterm)
      as (p & Hp & Hcp).
    eapply stripped_nonempty_pos; [exact Hp | by eapply strip_not_nil].
  - destruct (proj1 (split_nn_covers_pair text) c Hc Hnl) as (p & Hp & Hcp).
    eapply stripped_nonempty_pos; [exact Hp | by eapply strip_not_nil].
Qed.

Lemma words_have_sentence_witness :
  1 ≤ sentence_count (analyze_text (s_ "no full stop") true)
  ∧ 1 ≤ paragraph_count (analyze_text (s_ "no full stop") true).
Proof. apply (words_have_sentence (s_ "no full stop") true). by vm_compute. Defined.

(** X12: a text of white space only, the empty text among them, has no
    words, no sentences and no paragraphs, and its frequency table and
    list of most common words are empty. *)
Theorem analyze_text_blank (text : str) (include_stop_words : bool) :
  Forall (fun c => isspace c = true) text →
  let a := analyze_text text include_stop_words in
  word_count a = 0 ∧ unique_words a = 0
  ∧ sentence_count a = 0 ∧ paragraph_count a = 0
  ∧ word_frequency a = PyCounter [] ∧ most_common_words a = [].
Proof.
  intros Hblank. simpl.
  rewrite extract_words_no_letters.
  2:{ eapply Forall_impl; [exact Hblank |]. intros c Hc. simpl.
      unfold is_letter, is_lower, is_upper, isspace in *. lia. }
  assert (∀ c, c ∈ text → isspace c = true) as Hall
    by (by apply Forall_forall).
  rewrite !stripped_nonempty_nil; [done | |].
  - apply Forall_forall. intros p Hp. apply strip_spaces, Forall_forall.
    intros c Hc. apply Hall. by eapply (proj1 (split_nn_pieces_pair text)).
  - apply Forall_forall. intros p Hp. apply strip_spaces.
    apply split_runs_pieces in Hp. eapply Forall_impl; [exact Hp |].
    intros c [Hc _]. by apply Hall.
Qed.

Lemma analyze_text_blank_witness :
  let a := analyze_text [32; 10; 10; 9] false in
  word_count a = 0 ∧ unique_words a = 0
  ∧ sentence_count a = 0 ∧ paragraph_count a = 0
  ∧ word_frequency a = PyCounter [] ∧ most_common_words a = [].
Proof.
  apply (analyze_text_blank [32; 10; 10; 9] false). by repeat constructor.
Defined.

(** ** More on comparison *)

Section overlap.
Implicit Types (text : str) (X Y : gset str).

Lemma NoDup_take {A} (n : nat) (l : list A) : NoDup l → NoDup (take n l).
Proof.
  intros Hl. rewrite <- (take_drop n l) in Hl.
  by apply NoDup_app in Hl as (? & _ & _).
Qed.

Lemma common_words_count_unfold text1 text2 :
  common_words_count (compare_texts text1 text2)
  = Z.of_nat (size (vocabulary text1 ∩ vocabulary text2)).
Proof.
  unfold compare_texts, compare_vars. simpl.
  by rewrite !key_set_analyze_text.
Qed.

Lemma size_partition X Y :
  (size (X ∪ Y) = size (X ∩ Y) + size (X ∖ Y) + size (Y ∖ X))%nat.
Proof.
  assert (X ∪ Y = (X ∩ Y) ∪ ((X ∖ Y) ∪ (Y ∖ X))) as ->.
  { apply set_eq. intros w.
    rewrite !elem_of_union, elem_of_intersection, !elem_of_difference.
    destruct (decide (w ∈ X)), (decide (w ∈ Y)); tauto. }
  assert (X ∩ Y ## X ∖ Y ∪ Y ∖ X) as Hd1.
  { apply elem_of_disjoint. intros w.
    rewrite elem_of_intersection, elem_of_union, !elem_of_difference.
    tauto. }
  assert (X ∖ Y ## Y ∖ X) as Hd2.
  { apply elem_of_disjoint. intros w. rewrite !elem_of_difference. tauto. }
  pose proof (size_union _ _ Hd1). pose proof (size_union _ _ Hd2). lia.
Qed.

Lemma true_div_0 (b : Z) : (true_div 0 b == 0)%Q.
Proof. unfold true_div, Qdiv. apply Qmult_0_l. Qed.
End overlap.

(** X13: two texts whose vocabularies share no word have no common words
    and the similarity ratio 0, and each text's unique words are its whole
    vocabulary. *)
Theorem compare_texts_disjoint (text1 text2 : str) :
  vocabulary text1 ∩ vocabulary text2 = ∅ →
  common_words_count (compare_texts text1 text2) = 0
  ∧ (similarity_ratio (compare_texts text1 text2) == 0)%Q
  ∧ unique_to_text1 (compare_vars text1 text2) = vocabulary text1
  ∧ unique_to_text2 (compare_vars text1 text2) = vocabulary text2.
Proof.
  intros Hdisj. split_and!.
  - rewrite common_words_count_unfold, Hdisj. by rewrite size_empty.
  - rewrite similarity_ratio_unfold, Hdisj, size_empty.
    destruct (bool_decide _); [apply true_div_0 | done].
  - rewrite unique_to_text1_vocabulary. apply set_eq. intros w.
    rewrite elem_of_difference. split; [by intros [? _] |].
    intros Hw. split; [done |]. intros Hw'.
    apply (not_elem_of_empty (C := gset str) w). rewrite <- Hdisj.
    by apply elem_of_intersection.
  - rewrite unique_to_text2_vocabulary. apply set_eq. intros w.
    rewrite elem_of_difference. split; [by intros [? _] |].
    intros Hw. split; [done |]. intros Hw'.
    apply (not_elem_of_empty (C := gset str) w). rewrite <- Hdisj.
    by apply elem_of_intersection.
Qed.

Lemma compare_texts_disjoint_witness :
  common_words_count (compare_texts (s_ "quick fox") (s_ "lazy dog")) = 0
  ∧ (similarity_ratio (compare_texts (s_ "quick fox") (s_ "lazy dog")) == 0)%Q
  ∧ unique_to_text1 (compare_vars (s_ "quick fox") (s_ "lazy dog"))
    = vocabulary (s_ "quick fox")
  ∧ unique_to_text2 (compare_vars (s_ "quick fox") (s_ "lazy dog"))
    = vocabulary (s_ "lazy dog").
Proof.
  apply (compare_texts_disjoint (s_ "quick fox") (s_ "lazy dog")).
  by vm_compute.
Defined.

(** X14: the similarity ratio is 1 exactly when the two texts have the same
    vocabulary and that vocabulary is not empty. *)
Theorem similarity_ratio_one (text1 text2 : str) :
  (similarity_ratio (compare_texts text1 text2) == 1)%Q
  ↔ vocabulary text1 = vocabulary text2 ∧ vocabulary text1 ≠ ∅.
Proof.
  rewrite similarity_ratio_unfold.
  set (V1 := vocabulary text1). set (V2 := vocabulary text2).
  destruct (bool_decide_reflect (V1 ∪ V2 ≠ ∅)) as [Hne|Hemp].
  - pose proof (size_union_ne_0 _ _ Hne) as Hsize.
    rewrite true_div_Qmake by done. unfold Qeq. simpl.
    split.
    + intros Heq.
      assert (V1 ∩ V2 = V1 ∪ V2) as Hsame.
      { apply set_subseteq_size_eq; [| lia].
        intros w [Hw _]%elem_of_intersection. by apply elem_of_union_l. }
      assert (V1 = V2) as HV.
      { apply set_eq. intros w. split; intros Hw.
        - assert (w ∈ V1 ∩ V2) as [_ ?]%elem_of_intersection; [| done].
          rewrite Hsame. by apply elem_of_union_l.
        - assert (w ∈ V1 ∩ V2) as [? _]%elem_of_intersection; [| done].
          rewrite Hsame. by apply elem_of_union_r. }
      split; [done |]. intros Hnil. apply Hne. rewrite <- HV, Hnil.
      apply union_empty_l_L.
    + intros [<- _].
      replace (V1 ∩ V1) with V1 by (symmetry; apply intersection_idemp_L).
      replace (V1 ∪ V1) with V1 in * by (symmetry; apply union_idemp_L).
      lia.
  - apply dec_stable in Hemp. apply empty_union_L in Hemp as [H1 H2].
    split; [done | by intros [_ ?]].
Qed.

(** X15: each list of unique words that [compare_texts] returns holds
    distinct words of the one vocabulary that are not in the other, ten of
    them or all when there are fewer; and the common words together with
    the words unique to either text make up the union of the vocabularies. *)
Theorem compare_texts_unique_lists (text1 text2 : str) :
  let r := compare_texts text1 text2 in
  let V1 := vocabulary text1 in
  let V2 := vocabulary text2 in
  NoDup (unique_to_text1' r) ∧ NoDup (unique_to_text2' r)
  ∧ (∀ w, w ∈ unique_to_text1' r → w ∈ V1 ∧ w ∉ V2)
  ∧ (∀ w, w ∈ unique_to_text2' r → w ∈ V2 ∧ w ∉ V1)
  ∧ length (unique_to_text1' r) = (10 `min` size (V1 ∖ V2))%nat
  ∧ length (unique_to_text2' r) = (10 `min` size (V2 ∖ V1))%nat
  ∧ common_words_count r + Z.of_nat (size (V1 ∖ V2))
    + Z.of_nat (size (V2 ∖ V1))
    = Z.of_nat (size (V1 ∪ V2)).
Proof.
  intros r V1 V2. subst r.
  rewrite common_words_count_unfold.
  unfold compare_texts. cbn [unique_to_text1' unique_to_text2'].
  rewrite unique_to_text1_vocabulary, unique_to_text2_vocabulary.
  fold V1 V2. split_and!.
  - apply NoDup_take, NoDup_elements.
  - apply NoDup_take, NoDup_elements.
  - intros w Hw%subseteq_take. apply elem_of_elements in Hw.
    by apply elem_of_difference.
  - intros w Hw%subseteq_take. apply elem_of_elements in Hw.
    by apply elem_of_difference.
  - by rewrite length_take.
  - by rewrite length_take.
  - rewrite (size_partition V1 V2). lia.
Qed.

(** ** More on saving and on files *)

Lemma elem_of_dump_to_file fs output_file obj ev :
  ev ∈ (dump_to_file fs output_file obj).1 → event_obj ev = obj.
Proof.
  unfold dump_to_file.
  destruct (has_nul output_file), (write_answer fs output_file),
    (encodable obj); simpl; intros Hev;
    try (by apply elem_of_nil in Hev);
    by apply list_elem_of_singleton in Hev as ->.
Qed.

Lemma save_analysis_dump fs (σ : store) analysis a output_file :
  σ !! analysis = Some a →
  ∃ events raised,
    save_analysis fs σ analysis output_file
    = Some (<[analysis := to_plain_dict a]> σ, events, raised)
    ∧ ∀ ev, ev ∈ events → event_obj ev = to_plain_dict a.
Proof.
  intros Hin. unfold save_analysis. rewrite Hin, (lookup_insert_eq σ).
  pose proof (elem_of_dump_to_file fs output_file (to_plain_dict a)) as Hobj.
  destruct (dump_to_file fs output_file (to_plain_dict a))
    as [events raised]. eauto.
Qed.

(** X16: saving a result a second time changes nothing more, whether or
    not either writing succeeds: the store stays as the first call left
    it, and whatever the two calls write is the dump of the one result
    that the first call left there. *)
Theorem save_analysis_twice (fs : file_system) (σ : store) (analysis : loc)
    (a : Analysis) (output_file1 output_file2 : str) :
  σ !! analysis = Some a →
  ∃ σ1 a1 events1 raised1 events2 raised2,
    save_analysis fs σ analysis output_file1 = Some (σ1, events1, raised1)
    ∧ σ1 !! analysis = Some a1
    ∧ save_analysis fs σ1 analysis output_file2 = Some (σ1, events2, raised2)
    ∧ ∀ ev, ev ∈ events1 ++ events2 → event_obj ev = a1.
Proof.
  intros Hin.
  destruct (save_analysis_dump fs σ analysis a output_file1 Hin)
    as (events1 & raised1 & Hsave1 & Hobj1).
  assert (<[analysis := to_plain_dict a]> σ !! analysis
          = Some (to_plain_dict a)) as Hin1 by apply lookup_insert_eq.
  destruct (save_analysis_dump fs _ analysis _ output_file2 Hin1)
    as (events2 & raised2 & Hsave2 & Hobj2).
  assert (to_plain_dict (to_plain_dict a) = to_plain_dict a) as Hidem by done.
  rewrite Hidem, insert_insert_eq in Hsave2. rewrite Hidem in Hobj2.
  exists (<[analysis := to_plain_dict a]> σ), (to_plain_dict a),
    events1, raised1, events2, raised2.
  split_and!; [done.. |].
  intros ev [Hev|Hev]%elem_of_app; auto.
Qed.

Lemma save_analysis_twice_witness :
  ∃ σ1 a1 events1 raised1 events2 raised2,
    save_analysis bad_fs store0 saved (s_ "a.json")
    = Some (σ1, events1, raised1)
    ∧ σ1 !! saved = Some a1
    ∧ save_analysis bad_fs σ1 saved [] = Some (σ1, events2, raised2)
    ∧ ∀ ev, ev ∈ events1 ++ events2 → event_obj ev = a1.
Proof.
  apply (save_analysis_twice bad_fs store0 saved
           (analyze_text (s_ "a b a") true)).
  reflexivity.
Defined.

Section files.
Implicit Types (bs : list byte) (s : str).


End files.


(** ** Entering a text in [main] *)

Section entering.
Implicit Types (lines stdin pre rest : list str).

Lemma read_lines_step lines line stdin :
  (∀ l1 l2, lines ++ line :: stdin ≠ l1 ++ [[]; []] ++ l2) →
  read_lines lines (line :: stdin) = read_lines (lines ++ [line]) stdin.
Proof.
  intros Hno. simpl.
  destruct (bool_decide_reflect (line = [])) as [->|Hline]; [| done].
  destruct (bool_decide_reflect (last lines = Some [])) as [Hlast|Hlast];
    [| done].
  apply last_Some in Hlast as [l' ->]. destruct (Hno l' stdin).
  by rewrite <- app_assoc.
Qed.

Lemma read_lines_break lines pre rest :
  (∀ l1 l2, lines ++ pre ≠ l1 ++ [[]; []] ++ l2) →
  last (lines ++ pre) ≠ Some [] →
  read_lines lines (pre ++ [[]; []] ++ rest) = Some (lines ++ pre ++ [[]], rest).
Proof.
  revert lines. induction pre as [|x pre IH]; intros lines Hno Hlast.
  - rewrite app_nil_r in Hno, Hlast. simpl.
    rewrite (bool_decide_false (last lines = Some [])) by done. simpl.
    by rewrite last_snoc.
  - assert (read_lines lines ((x :: pre) ++ [[]; []] ++ rest)
            = read_lines (lines ++ [x]) (pre ++ [[]; []] ++ rest)) as ->.
    { simpl.
      destruct (bool_decide_reflect (x = [])) as [->|Hx]; [| done].
      destruct (bool_decide_reflect (last lines = Some [])) as [Hl|Hl];
        [| done].
      apply last_Some in Hl as [l' ->]. destruct (Hno l' pre).
      by rewrite <- app_assoc. }
    rewrite IH.
    + by rewrite <- !app_assoc.
    + intros l1 l2. rewrite <- app_assoc. apply Hno.
    + by rewrite <- app_assoc.
Qed.

Lemma read_lines_eof lines stdin :
  (∀ l1 l2, lines ++ stdin ≠ l1 ++ [[]; []] ++ l2) →
  read_lines lines stdin = None.
Proof.
  revert lines. induction stdin as [|line stdin IH]; intros lines Hno;
    [done |].
  rewrite read_lines_step by done. apply IH.
  intros l1 l2. rewrite <- app_assoc. apply Hno.
Qed.
End entering.

(** X18: when the lines typed are some lines without two empty lines in a
    row and without an empty line at their end, followed by two empty
    lines, the loop of [main] stops there and the text is those first
    lines joined by newlines; what was typed after is left unread. *)
Theorem enter_text_two_empty_lines (pre rest : list str) :
  (∀ l1 l2, pre ≠ l1 ++ [[]; []] ++ l2) →
  last pre ≠ Some [] →
  enter_text (pre ++ [[]; []] ++ rest) = Some (join [10] pre, rest).
Proof.
  intros Hno Hlast. unfold enter_text.
  rewrite (read_lines_break [] pre rest) by done. simpl.
  rewrite length_app. simpl.
  replace (length pre + 1 - 1)%nat with (length pre) by lia.
  by rewrite take_app_length.
Qed.

Lemma enter_text_two_empty_lines_witness :
  enter_text ([s_ "a"; []; s_ "b"] ++ [[]; []] ++ [s_ "y"])
  = Some (join [10] [s_ "a"; []; s_ "b"], [s_ "y"]).
Proof.
  apply (enter_text_two_empty_lines [s_ "a"; []; s_ "b"] [s_ "y"]).
  - intros l1 l2 Heq.
    destruct l1 as [|? [|? [|? [|? l1]]]]; simplify_eq/=.
  - by vm_compute.
Defined.

(** X19: when the input ends and no empty line has followed an empty line,
    the loop of [main] does not produce a text: it ends in the [EOFError]
    of [input()]. *)
Theorem enter_text_eof (stdin : list str) :
  (∀ l1 l2, stdin ≠ l1 ++ [[]; []] ++ l2) →
  enter_text stdin = None.
Proof.
  intros Hno. unfold enter_text. by rewrite (read_lines_eof [] stdin).
Qed.

Lemma enter_text_eof_witness : enter_text [s_ "a"; []; s_ "b"; []] = None.
Proof.
  apply (enter_text_eof [s_ "a"; []; s_ "b"; []]).
  intros l1 l2 Heq.
  destruct l1 as [|? [|? [|? [|? [|? l1]]]]]; simplify_eq/=.
Defined.

(** ** Averages *)

Lemma scenario_averages :
  avg_word_length (analyze_text scenario true) = PyFloat (int_truediv 371 100)
  ∧ avg_sentence_length (analyze_text scenario true)
    = PyFloat (int_truediv 35 10)
  ∧ reading_time_minutes (analyze_text scenario true)
    = PyFloat (int_truediv 4 100).
Proof. by vm_compute. Qed.

(** X20: for a text of white space only the two averages are the [int] 0
    of the guards of the source, and the reading time is the [float] 0.0. *)
Theorem analyze_text_blank_averages (text : str) (include_stop_words : bool) :
  Forall (fun c => isspace c = true) text →
  let a := analyze_text text include_stop_words in
  avg_word_length a = PyInt 0
  ∧ avg_sentence_length a = PyInt 0
  ∧ reading_time_minutes a = PyFloat (S754_zero false).
Proof.
  intros Hblank. simpl.
  rewrite extract_words_no_letters.
  2:{ eapply Forall_impl; [exact Hblank |]. intros c Hc. simpl.
      unfold is_letter, is_lower, is_upper, isspace in *. lia. }
  rewrite stripped_nonempty_nil; [done |].
  apply Forall_forall. intros p Hp. apply strip_spaces.
  apply split_runs_pieces in Hp. eapply Forall_impl; [exact Hp |].
  intros c [Hc _]. by eapply Forall_forall in Hblank.
Qed.

Lemma analyze_text_blank_averages_witness :
  let a := analyze_text [32; 10; 10; 9] true in
  avg_word_length a = PyInt 0
  ∧ avg_sentence_length a = PyInt 0
  ∧ reading_time_minutes a = PyFloat (S754_zero false).
Proof.
  apply (analyze_text_blank_averages [32; 10; 10; 9] true).
  by repeat constructor.
Defined.
